(** * Block completion transformer

    A shallow embedding of
    [lms/djangoapps/course_api/blocks/transformers/block_completion.py]
    ([BlockCompletionTransformer]) and the properties of its [transform]
    pass: the per-block [completion] value, the [complete] flag, the
    [resume_block] flag and the special-exam override.

    The block structure is a mutable Python object; it is modelled as a
    record that is threaded through a small state-and-exception monad.  An
    exception leaves the writes made before it in place, exactly as an
    in-place mutation does. *)

From Stdlib Require Import PrimFloat ZArith.
From stdpp Require Import gmap strings list fin_maps.

Set Default Proof Using "Type".

(** ** Values stored on a block *)

(** [xblock.completable.XBlockCompletionMode]. *)
Inductive CompletionMode := COMPLETABLE | AGGREGATOR | EXCLUDED.

#[global] Instance CompletionMode_eq_dec : EqDecision CompletionMode.
Proof. solve_decision. Defined.

(** The xblock fields the transformer touches: the collected
    ['completion_mode'] and the two overrides [COMPLETE = 'complete'] and
    [RESUME_BLOCK = 'resume_block']. *)
Inductive field_name := completion_mode | COMPLETE | RESUME_BLOCK.

#[global] Instance field_name_eq_dec : EqDecision field_name.
Proof. solve_decision. Defined.

#[global] Instance field_name_countable : Countable field_name.
Proof.
  refine (inj_countable'
            (λ f, match f with completion_mode => 0%nat | COMPLETE => 1%nat
                          | RESUME_BLOCK => 2%nat end)
            (λ n, match n with 0%nat => completion_mode | 1%nat => COMPLETE
                          | _ => RESUME_BLOCK end) _).
  by intros [].
Defined.

(** A field holds a completion mode or a boolean; Python's [None] is the
    absence of a value ([option value]). *)
Inductive value := VMode (m : CompletionMode) | VBool (b : bool).

#[global] Instance value_eq_dec : EqDecision value.
Proof. solve_decision. Defined.

(** Python truthiness of what [get_xblock_field] returns: [None] and
    [False] are falsy, [True] and the (non-empty) mode strings are truthy. *)
Definition truthy (v : option value) : bool :=
  match v with
  | None => false
  | Some (VBool b) => b
  | Some (VMode _) => true
  end.

(** ** External records *)

(** A proctoring exam as [get_all_exams_for_course] serialises it. *)
Record Exam := { exam_id : nat; content_id : string }.

(** An exam attempt as [get_current_exam_attempt] serialises it. *)
Record ExamAttempt := { status : string }.

(** The caller's [usage_info]. *)
Record UsageInfo := { user : nat; course_key : string }.

(** What a call leaves behind besides the store. *)
Inductive exn := NameError (name : string).

Inductive outcome (A : Type) :=
| Returns (a : A)
| Raises (e : exn)
| OutOfFuel.
Arguments Returns {A} a.
Arguments Raises {A} e.
Arguments OutOfFuel {A}.

Section Transformer.

(** Block usage keys are opaque: hashable, comparable, printable. *)
Context {Key : Type} {Key_eq_dec : EqDecision Key} {Key_countable : Countable Key}.

(** [str(block_key)] and [block_key.map_into_course(course_key)], from the
    opaque-keys package. *)
Variable str : Key → string.
Variable map_into_course : Key → string → Key.

(** One row of [BlockCompletion.objects...values_list('block_key',
    'completion')]; [modified] is the column [latest()] orders by. *)
Record BlockCompletion := {
  block_key : Key;
  completion : float;
  modified : Z
}.

(** [BlockCompletion.objects.filter(user=..., context_key=...)]. *)
Variable completions_for : nat → string → list BlockCompletion.

(** [edx_proctoring.api] and [ProctoredExamStudentAttemptStatus]. *)
Variable get_all_exams_for_course : string → bool → list Exam.
Variable get_current_exam_attempt : nat → nat → option ExamAttempt.
Variable is_completed_status : string → bool.

(** Bound on the iterations of the [while children] loop. *)
Variable fuel : nat.

(** ** The block structure *)

Record BlockStructure := {
  block_relations : gmap Key (list Key);
  topological_order : list Key;
  post_order : list Key;
  xblock_fields : gmap (Key * field_name) value;
  transformer_fields : gmap Key (option float)
}.

(** Modelled from the spec: the tree handle of the block-structure package
    ([children(key)], [topologicalOrder()], [reverseTopologicalOrder()],
    [getField] / [setField]), which is not part of the transformer's file.
    A key without an entry has no children; a field that was never set
    reads as [None]; a write replaces the field and nothing else. *)
Definition get_children (bs : BlockStructure) (k : Key) : list Key :=
  default [] (block_relations bs !! k).

(** Modelled from the spec: [topologicalOrder()], parents before
    children. *)
Definition topological_traversal (bs : BlockStructure) : list Key :=
  topological_order bs.

(** Modelled from the spec: [reverseTopologicalOrder()], children before
    parents. *)
Definition post_order_traversal (bs : BlockStructure) : list Key :=
  post_order bs.

(** Modelled from the spec: [getField(key, fieldName)]; [None] for a field
    that is missing or was never set. *)
Definition get_xblock_field (bs : BlockStructure) (k : Key) (f : field_name)
  : option value :=
  xblock_fields bs !! (k, f).

(** Modelled from the spec: [setField(key, fieldName, value)], the write
    behind [override_xblock_field]. *)
Definition set_xblock_field (k : Key) (f : field_name) (v : value)
    (bs : BlockStructure) : BlockStructure :=
  {| block_relations := block_relations bs;
     topological_order := topological_order bs;
     post_order := post_order bs;
     xblock_fields := <[(k, f) := v]> (xblock_fields bs);
     transformer_fields := transformer_fields bs |}.

(** Modelled from the spec: the transformer's own field namespace, here
    its one field [COMPLETION = 'completion']; the getter answers [None]
    for a block without the field. *)
Definition get_transformer_block_field (bs : BlockStructure) (k : Key)
  : option float :=
  default None (transformer_fields bs !! k).

Definition set_transformer_field (k : Key) (v : option float)
    (bs : BlockStructure) : BlockStructure :=
  {| block_relations := block_relations bs;
     topological_order := topological_order bs;
     post_order := post_order bs;
     xblock_fields := xblock_fields bs;
     transformer_fields := <[k := v]> (transformer_fields bs) |}.

(** ** The monad: a store that survives exceptions *)

Definition M (A : Type) : Type := BlockStructure → BlockStructure * outcome A.

#[global] Instance M_ret : MRet M := λ A a bs, (bs, Returns a).

#[global] Instance M_bind : MBind M := λ A B f m bs,
  match m bs with
  | (bs', Returns a) => f a bs'
  | (bs', Raises e) => (bs', Raises e)
  | (bs', OutOfFuel) => (bs', OutOfFuel)
  end.

Definition gets {A} (f : BlockStructure → A) : M A := λ bs, (bs, Returns (f bs)).
Definition modify (f : BlockStructure → BlockStructure) : M unit :=
  λ bs, (f bs, Returns tt).
Definition raise {A} (e : exn) : M A := λ bs, (bs, Raises e).
Definition out_of_fuel {A} : M A := λ bs, (bs, OutOfFuel).

Definition when (b : bool) (m : M unit) : M unit := if b then m else mret tt.

Fixpoint for_each {A} (l : list A) (body : A → M unit) : M unit :=
  match l with
  | [] => mret tt
  | x :: rest => body x ;; for_each rest body
  end.

(** The store a computation leaves, whatever its outcome. *)
Definition exec {A} (m : M A) (bs : BlockStructure) : BlockStructure := (m bs).1.

Definition override_xblock_field (k : Key) (f : field_name) (v : value) : M unit :=
  modify (set_xblock_field k f v).

Definition set_transformer_block_field (k : Key) (v : option float) : M unit :=
  modify (set_transformer_field k v).

(** ** Name lookup *)

(** The names bound at module level of [block_completion.py]: its imports
    and the class. *)
Definition module_globals : list string :=
  ["BlockCompletion"; "ProctoredExamStudentAttemptStatus";
   "get_all_exams_for_course"; "get_current_exam_attempt";
   "CompletionMode"; "BlockStructureTransformer";
   "BlockCompletionTransformer"].

(** Reading a name inside a function: its parameters, then the module's
    globals (no builtin is called [self]). *)
Definition load_name (params : list string) (name : string) : M unit :=
  if bool_decide (name ∈ params ++ module_globals) then mret tt
  else raise (NameError name).

(** ** The transformer *)

(** [BlockCompletionTransformer.get_block_completion]. *)
Definition get_block_completion (bs : BlockStructure) (k : Key) : option float :=
  get_transformer_block_field bs k.

(** [_is_block_excluded]: [completion_mode == CompletionMode.EXCLUDED]. *)
Definition _is_block_excluded (bs : BlockStructure) (k : Key) : bool :=
  bool_decide (get_xblock_field bs k completion_mode = Some (VMode EXCLUDED)).

(** The loop of [_complete_exam_keys]: pop the first child, force it
    complete, queue its children. *)
Fixpoint exam_loop (n : nat) (children : list Key) : M unit :=
  match children with
  | [] => mret tt
  | child :: rest =>
      match n with
      | O => out_of_fuel
      | S n' =>
          override_xblock_field child COMPLETE (VBool true) ;;
          grandchildren ← gets (λ bs, get_children bs child) ;
          exam_loop n' (rest ++ grandchildren)
      end
  end.

(** [_complete_exam_keys(block_key, block_structure)].  It is declared a
    [@staticmethod] with these two parameters, yet its body reads
    [self.COMPLETE]: the first statement looks the name [self] up while
    evaluating the arguments of [override_xblock_field], before any write. *)
Definition _complete_exam_keys (k : Key) : M unit :=
  load_name ["block_key"; "block_structure"] "self" ;;
  override_xblock_field k COMPLETE (VBool true) ;;
  children ← gets (λ bs, get_children bs k) ;
  exam_loop fuel children.

(** [all(get_xblock_field(child, COMPLETE) for child in children
        if not _is_block_excluded(child))]. *)
Definition all_children_complete (bs : BlockStructure) (children : list Key) : bool :=
  forallb (λ c, truthy (get_xblock_field bs c COMPLETE))
          (filter (λ c, _is_block_excluded bs c = false) children).

(** [any(get_xblock_field(child, RESUME_BLOCK) for child in children)]. *)
Definition any_child_resume (bs : BlockStructure) (children : list Key) : bool :=
  existsb (λ c, truthy (get_xblock_field bs c RESUME_BLOCK)) children.

(** [mark_complete]. *)
Definition mark_complete (complete_course_blocks : gset Key)
    (latest_complete_block_key : Key) (k : Key)
    (completed_exam_keys : gset string) : M unit :=
  (if bool_decide (k ∈ complete_course_blocks) then
     override_xblock_field k COMPLETE (VBool true) ;;
     when (String.eqb (str k) (str latest_complete_block_key))
          (override_xblock_field k RESUME_BLOCK (VBool true))
   else
     mode ← gets (λ bs, get_xblock_field bs k completion_mode) ;
     if bool_decide (mode = Some (VMode AGGREGATOR)) then
       children ← gets (λ bs, get_children bs k) ;
       all_complete ← gets (λ bs, all_children_complete bs children) ;
       when all_complete (override_xblock_field k COMPLETE (VBool true)) ;;
       any_resume ← gets (λ bs, any_child_resume bs children) ;
       when any_resume (override_xblock_field k RESUME_BLOCK (VBool true))
     else mret tt) ;;
  when (bool_decide (str k ∈ completed_exam_keys)) (_complete_exam_keys k).

(** [_is_block_an_aggregator_or_excluded], the closure inside [transform]. *)
Definition _is_block_an_aggregator_or_excluded (bs : BlockStructure) (k : Key) : bool :=
  bool_decide (get_xblock_field bs k completion_mode = Some (VMode AGGREGATOR)
               ∨ get_xblock_field bs k completion_mode = Some (VMode EXCLUDED)).

(** [completions_dict]: a later row for the same mapped key replaces an
    earlier one. *)
Definition completions_dict (ui : UsageInfo) : gmap Key float :=
  foldl (λ d row, <[map_into_course (block_key row) (course_key ui) := completion row]> d)
        ∅ (completions_for (user ui) (course_key ui)).

(** [completions.filter(completion=1.0)]. *)
Definition complete_blocks (ui : UsageInfo) : list BlockCompletion :=
  filter (λ row, PrimFloat.eqb (completion row) 1%float = true)
         (completions_for (user ui) (course_key ui)).

(** Modelled from the spec: [QuerySet.latest()] of the completion package,
    which is not part of the transformer's file: among the rows, the one
    with the greatest ordering key, ties broken by the underlying row
    order (the first such row). *)
Fixpoint latest (rows : list BlockCompletion) : option BlockCompletion :=
  match rows with
  | [] => None
  | row :: rest =>
      match latest rest with
      | Some row' => if (modified row <? modified row')%Z then Some row' else Some row
      | None => Some row
      end
  end.

(** [complete_blocks.latest()[0] if complete_blocks else None]. *)
Definition latest_complete_key (ui : UsageInfo) : option Key :=
  block_key <$> latest (complete_blocks ui).

(** [{key for key, completion in completions_dict.items() if completion == 1.0}]. *)
Definition complete_keys (ui : UsageInfo) : gset Key :=
  dom (filter (λ kc, PrimFloat.eqb kc.2 1%float = true) (completions_dict ui)).

(** The loop over [active_exams] that collects [completed_exam_keys]. *)
Definition completed_exam_keys (ui : UsageInfo) : gset string :=
  foldl (λ keys exam,
           match get_current_exam_attempt (exam_id exam) (user ui) with
           | Some exam_attempt =>
               if is_completed_status (status exam_attempt)
               then {[content_id exam]} ∪ keys else keys
           | None => keys
           end)
        ∅ (get_all_exams_for_course (course_key ui) true).

(** The value the first loop of [transform] stores for a block:
    [None] for an aggregator or an excluded block, else the entry of
    [completions_dict], else 0.0. *)
Definition completion_value (ui : UsageInfo) (bs : BlockStructure) (k : Key)
  : option float :=
  if _is_block_an_aggregator_or_excluded bs k then None
  else match completions_dict ui !! k with
       | Some c => Some c
       | None => Some 0%float
       end.

(** [transform]. *)
Definition transform (ui : UsageInfo) : M unit :=
  topological ← gets topological_traversal ;
  for_each topological (λ k,
    aggregator_or_excluded ← gets (λ bs, _is_block_an_aggregator_or_excluded bs k) ;
    set_transformer_block_field k
      (if aggregator_or_excluded : bool then None
       else match completions_dict ui !! k with
            | Some c => Some c
            | None => Some 0%float
            end)) ;;
  match latest_complete_key ui with
  | Some latest_key =>
      post ← gets post_order_traversal ;
      for_each post (λ k,
        mark_complete (complete_keys ui) latest_key k (completed_exam_keys ui))
  | None => mret tt
  end.

(** ** Vocabulary of the properties *)

(** No [complete] and no [resume_block] on any block: the state of a block
    structure that only went through [collect]. *)
Definition fresh (bs : BlockStructure) : Prop :=
  ∀ k, get_xblock_field bs k COMPLETE = None
       ∧ get_xblock_field bs k RESUME_BLOCK = None.

(** In the list [l], the children of a block stand before the block. *)
Definition children_first (bs : BlockStructure) (l : list Key) : Prop :=
  ∀ l1 p l2, l = l1 ++ p :: l2 → ∀ c, c ∈ get_children bs p → c ∈ l1.

(** What the structure provider promises of [post_order_traversal]: every
    block once, children before parents. *)
Definition post_order_ok (bs : BlockStructure) : Prop :=
  NoDup (post_order_traversal bs) ∧ children_first bs (post_order_traversal bs).

(** [d] is [n] or is reachable from [n] along the children relation. *)
Inductive descendant (bs : BlockStructure) : Key → Key → Prop :=
| descendant_self n : descendant bs n n
| descendant_child n c d :
    c ∈ get_children bs n → descendant bs c d → descendant bs n d.

(** The blocks the resume flag reaches: a visited block that is recorded
    complete and prints like the latest key, and then upwards through
    aggregators that are not themselves recorded complete. *)
Inductive resume_path (bs : BlockStructure) (ck : gset Key) (latest_key : Key)
  : Key → Prop :=
| resume_latest n :
    n ∈ post_order_traversal bs → n ∈ ck → str n = str latest_key →
    resume_path bs ck latest_key n
| resume_parent p c :
    p ∈ post_order_traversal bs → p ∉ ck →
    get_xblock_field bs p completion_mode = Some (VMode AGGREGATOR) →
    c ∈ get_children bs p → resume_path bs ck latest_key c →
    resume_path bs ck latest_key p.

(** The store one call of [mark_complete] leaves. *)
Definition mark_store (ck : gset Key) (latest_key : Key) (k : Key)
    (bs : BlockStructure) : BlockStructure :=
  if bool_decide (k ∈ ck) then
    let bs1 := set_xblock_field k COMPLETE (VBool true) bs in
    if String.eqb (str k) (str latest_key)
    then set_xblock_field k RESUME_BLOCK (VBool true) bs1 else bs1
  else if bool_decide (get_xblock_field bs k completion_mode = Some (VMode AGGREGATOR)) then
    let bs1 := if all_children_complete bs (get_children bs k)
               then set_xblock_field k COMPLETE (VBool true) bs else bs in
    if any_child_resume bs1 (get_children bs k)
    then set_xblock_field k RESUME_BLOCK (VBool true) bs1 else bs1
  else bs.

(** The blocks the second loop reaches: all of them, or up to the first one
    whose key names a completed exam. *)
Fixpoint visited (ek : gset string) (l : list Key) : list Key :=
  match l with
  | [] => []
  | k :: rest => if bool_decide (str k ∈ ek) then [k] else k :: visited ek rest
  end.

(** Whether the second loop meets such a block at all. *)
Definition hits (ek : gset string) (l : list Key) : bool :=
  existsb (λ k, bool_decide (str k ∈ ek)) l.

(** The stores the two loops of [transform] leave. *)
Definition sweep (ck : gset Key) (latest_key : Key) (l : list Key)
    (bs : BlockStructure) : BlockStructure :=
  foldl (λ s k, mark_store ck latest_key k s) bs l.

Definition assign (ui : UsageInfo) (l : list Key) (bs : BlockStructure)
  : BlockStructure :=
  foldl (λ s k, set_transformer_field k (completion_value ui s k) s) bs l.

(** A boolean check of [children_first], for concrete structures. *)
Fixpoint children_firstb (bs : BlockStructure) (seen l : list Key) : bool :=
  match l with
  | [] => true
  | p :: rest =>
      forallb (λ c, bool_decide (c ∈ seen)) (get_children bs p)
      && children_firstb bs (seen ++ [p]) rest
  end.

(** The two decisions of [mark_complete]: whether it writes [complete]
    and whether it writes [resume_block] on the block it is called for. *)
Definition completes (ck : gset Key) (k : Key) (bs : BlockStructure) : bool :=
  bool_decide (k ∈ ck)
  || (bool_decide (get_xblock_field bs k completion_mode = Some (VMode AGGREGATOR))
      && all_children_complete bs (get_children bs k)).

Definition resumes (ck : gset Key) (latest_key : Key) (k : Key)
    (bs : BlockStructure) : bool :=
  if bool_decide (k ∈ ck) then String.eqb (str k) (str latest_key)
  else bool_decide (get_xblock_field bs k completion_mode = Some (VMode AGGREGATOR))
       && any_child_resume bs (get_children bs k).

(** The vote of an aggregator, read off a store: every child that is not
    excluded has [complete] equal to [True]. *)
Definition children_vote (bs : BlockStructure) (p : Key) : Prop :=
  ∀ c, c ∈ get_children bs p → _is_block_excluded bs c = false →
       get_xblock_field bs c COMPLETE = Some (VBool true).

(** The complete flag of every block is unset or [True]. *)
Definition complete_tidy (bs : BlockStructure) : Prop :=
  ∀ c, get_xblock_field bs c COMPLETE = None
       ∨ get_xblock_field bs c COMPLETE = Some (VBool true).

(** Two stores over the same tree: same relations, same post-order, same
    completion modes. *)
Definition same_tree (bs bs' : BlockStructure) : Prop :=
  block_relations bs' = block_relations bs
  ∧ post_order bs' = post_order bs
  ∧ ∀ k, get_xblock_field bs' k completion_mode = get_xblock_field bs k completion_mode.

(** A boolean check of [fresh], for concrete structures: every stored
    xblock field is a completion mode. *)
Definition freshb (bs : BlockStructure) : bool :=
  bool_decide (map_Forall (λ kf _, kf.2 = completion_mode) (xblock_fields bs)).

(** Two block structures that hold the same inputs of [transform]: the
    same tree, the same traversals and the same xblock fields.  They may
    differ in the [completion] values an earlier run left behind. *)
Definition same_inputs (bs bs' : BlockStructure) : Prop :=
  block_relations bs' = block_relations bs
  ∧ topological_order bs' = topological_order bs
  ∧ post_order bs' = post_order bs
  ∧ xblock_fields bs' = xblock_fields bs.

(** The blocks the complete flag reaches: a visited block that is recorded
    complete, and a visited aggregator that is not, all of whose children
    that are not excluded are reached. *)
Inductive complete_path (bs : BlockStructure) (ck : gset Key) : Key → Prop :=
| complete_recorded n :
    n ∈ post_order_traversal bs → n ∈ ck → complete_path bs ck n
| complete_aggregated p :
    p ∈ post_order_traversal bs → p ∉ ck →
    get_xblock_field bs p completion_mode = Some (VMode AGGREGATOR) →
    (∀ c, c ∈ get_children bs p → _is_block_excluded bs c = false →
          complete_path bs ck c) →
    complete_path bs ck p.

(** The same structure with another post-order traversal. *)
Definition reorder (post : list Key) (bs : BlockStructure) : BlockStructure :=
  {| block_relations := block_relations bs;
     topological_order := topological_order bs;
     post_order := post;
     xblock_fields := xblock_fields bs;
     transformer_fields := transformer_fields bs |}.

(** * Properties *)

(** ** The store *)

Lemma get_set_xblock_field_eq k f v bs :
  get_xblock_field (set_xblock_field k f v bs) k f = Some v.
Proof. apply lookup_insert_eq. Qed.

Lemma get_set_xblock_field_ne k f v bs k' f' :
  (k', f') ≠ (k, f) →
  get_xblock_field (set_xblock_field k f v bs) k' f' = get_xblock_field bs k' f'.
Proof. intros Hne. unfold get_xblock_field; simpl. by rewrite lookup_insert_ne. Qed.

Lemma set_xblock_field_id k f v bs :
  get_xblock_field bs k f = Some v → set_xblock_field k f v bs = bs.
Proof.
  intros Hget. destruct bs; unfold set_xblock_field; simpl in *.
  f_equal. by apply insert_id.
Qed.

Lemma set_transformer_field_id k v bs :
  transformer_fields bs !! k = Some v → set_transformer_field k v bs = bs.
Proof.
  intros Hget. destruct bs; unfold set_transformer_field; simpl in *.
  f_equal. by apply insert_id.
Qed.

Lemma freshb_ok bs : freshb bs = true → fresh bs.
Proof.
  intros Hb%bool_decide_eq_true_1 k. unfold get_xblock_field.
  split.
  - destruct (xblock_fields bs !! (k, COMPLETE)) as [v|] eqn:Hl; [|done].
    by specialize (Hb _ _ Hl).
  - destruct (xblock_fields bs !! (k, RESUME_BLOCK)) as [v|] eqn:Hl; [|done].
    by specialize (Hb _ _ Hl).
Qed.

Lemma children_firstb_sound bs seen l :
  children_firstb bs seen l = true →
  ∀ l1 p l2, l = l1 ++ p :: l2 → ∀ c, c ∈ get_children bs p → c ∈ seen ++ l1.
Proof.
  revert seen. induction l as [|a l IH]; intros seen Hb l1 p l2 Heq c Hc.
  - by destruct l1.
  - simpl in Hb. apply andb_true_iff in Hb as [Hhere Hrest].
    destruct l1 as [|b l1]; simplify_eq/=.
    + rewrite forallb_forall in Hhere.
      pose proof (Hhere c (proj1 (list_elem_of_In _ _) Hc)) as Hd.
      rewrite app_nil_r. by apply bool_decide_eq_true_1 in Hd.
    + specialize (IH _ Hrest l1 p l2 eq_refl c Hc).
      by rewrite <- app_assoc in IH.
Qed.

Lemma children_firstb_ok bs l :
  children_firstb bs [] l = true → children_first bs l.
Proof. intros Hb l1 p l2 Heq c Hc. by apply (children_firstb_sound bs [] l Hb l1 p l2). Qed.

(** ** What the calls compute *)

Lemma _complete_exam_keys_run k bs :
  _complete_exam_keys k bs = (bs, Raises (NameError "self")).
Proof. reflexivity. Qed.

Lemma any_child_resume_set_complete k v bs l :
  any_child_resume (set_xblock_field k COMPLETE v bs) l = any_child_resume bs l.
Proof.
  unfold any_child_resume. induction l as [|c l IH]; [done|]. simpl.
  by rewrite IH, get_set_xblock_field_ne.
Qed.

Lemma mark_complete_run ck latest_key k ek bs :
  mark_complete ck latest_key k ek bs
  = (mark_store ck latest_key k bs,
     if bool_decide (str k ∈ ek) then Raises (NameError "self") else Returns tt).
Proof.
  unfold mark_complete, mark_store, mbind, M_bind, when, override_xblock_field,
    modify, gets, mret, M_ret.
  destruct (bool_decide (k ∈ ck)); simpl.
  - destruct (String.eqb (str k) (str latest_key)); simpl;
      by destruct (bool_decide (str k ∈ ek)).
  - destruct (bool_decide (get_xblock_field bs k completion_mode = _)); simpl.
    + destruct (all_children_complete bs (get_children bs k)); simpl.
      * rewrite any_child_resume_set_complete.
        destruct (any_child_resume bs (get_children bs k)); simpl;
          by destruct (bool_decide (str k ∈ ek)).
      * destruct (any_child_resume bs (get_children bs k)); simpl;
          by destruct (bool_decide (str k ∈ ek)).
    + by destruct (bool_decide (str k ∈ ek)).
Qed.

Lemma for_each_mark_run ck latest_key ek l bs :
  for_each l (λ k, mark_complete ck latest_key k ek) bs
  = (sweep ck latest_key (visited ek l) bs,
     if hits ek l then Raises (NameError "self") else Returns tt).
Proof.
  revert bs. induction l as [|k l IH]; intros bs; [done|].
  simpl. unfold mbind, M_bind. rewrite mark_complete_run.
  destruct (bool_decide (str k ∈ ek)); simpl; [done|]. apply IH.
Qed.

Lemma for_each_assign_run ui l bs :
  for_each l (λ k,
    aggregator_or_excluded ← gets (λ bs, _is_block_an_aggregator_or_excluded bs k) ;
    set_transformer_block_field k
      (if aggregator_or_excluded : bool then None
       else match completions_dict ui !! k with
            | Some c => Some c
            | None => Some 0%float
            end)) bs
  = (assign ui l bs, Returns tt).
Proof.
  revert bs. induction l as [|k l IH]; intros bs; [done|].
  simpl. unfold mbind, M_bind at 1. unfold gets at 1. simpl.
  unfold mbind, M_bind at 1. simpl. apply IH.
Qed.

Lemma assign_post_order ui l bs : post_order (assign ui l bs) = post_order bs.
Proof. revert bs. induction l as [|k l IH]; intros bs; [done|]. simpl. by rewrite IH. Qed.

Lemma assign_xblock_fields ui l bs : xblock_fields (assign ui l bs) = xblock_fields bs.
Proof. revert bs. induction l as [|k l IH]; intros bs; [done|]. simpl. by rewrite IH. Qed.

Lemma assign_block_relations ui l bs :
  block_relations (assign ui l bs) = block_relations bs.
Proof. revert bs. induction l as [|k l IH]; intros bs; [done|]. simpl. by rewrite IH. Qed.

Lemma assign_topological_order ui l bs :
  topological_order (assign ui l bs) = topological_order bs.
Proof. revert bs. induction l as [|k l IH]; intros bs; [done|]. simpl. by rewrite IH. Qed.

(** [transform], loop by loop. *)
Lemma transform_run ui bs :
  transform ui bs
  = match latest_complete_key ui with
    | Some latest_key =>
        (sweep (complete_keys ui) latest_key
               (visited (completed_exam_keys ui) (post_order_traversal bs))
               (assign ui (topological_traversal bs) bs),
         if hits (completed_exam_keys ui) (post_order_traversal bs)
         then Raises (NameError "self") else Returns tt)
    | None => (assign ui (topological_traversal bs) bs, Returns tt)
    end.
Proof.
  unfold transform. unfold mbind at 1, M_bind at 1, gets at 1. simpl.
  unfold mbind at 1, M_bind at 1. rewrite for_each_assign_run.
  destruct (latest_complete_key ui) as [latest_key|]; [|done].
  unfold mbind at 1, M_bind at 1, gets at 1. simpl.
  rewrite for_each_mark_run. unfold post_order_traversal.
  by rewrite assign_post_order.
Qed.

(** ** One visit of [mark_complete] *)

Lemma mark_store_alt ck latest_key k bs :
  mark_store ck latest_key k bs
  = (if resumes ck latest_key k bs
     then set_xblock_field k RESUME_BLOCK (VBool true) else id)
      ((if completes ck k bs
        then set_xblock_field k COMPLETE (VBool true) else id) bs).
Proof.
  unfold mark_store, completes, resumes.
  destruct (bool_decide (k ∈ ck)); simpl;
    [by destruct (String.eqb (str k) (str latest_key))|].
  destruct (bool_decide (get_xblock_field bs k completion_mode = _)); simpl; [|done].
  destruct (all_children_complete bs (get_children bs k)); simpl;
    rewrite ?any_child_resume_set_complete;
    by destruct (any_child_resume bs (get_children bs k)).
Qed.

Lemma mark_store_get ck latest_key k bs k' f :
  get_xblock_field (mark_store ck latest_key k bs) k' f
  = if bool_decide (k' = k ∧ f = COMPLETE) && completes ck k bs
    then Some (VBool true)
    else if bool_decide (k' = k ∧ f = RESUME_BLOCK) && resumes ck latest_key k bs
    then Some (VBool true)
    else get_xblock_field bs k' f.
Proof.
  rewrite mark_store_alt.
  destruct (completes ck k bs), (resumes ck latest_key k bs); simpl;
    rewrite ?andb_true_r, ?andb_false_r; simpl.
  - case_bool_decide as Hc.
    + destruct Hc as [-> ->].
      rewrite get_set_xblock_field_ne by congruence.
      apply get_set_xblock_field_eq.
    + case_bool_decide as Hr.
      * destruct Hr as [-> ->]. apply get_set_xblock_field_eq.
      * rewrite !get_set_xblock_field_ne; [done|..];
          intros [= -> ->]; first [by apply Hc|by apply Hr].
  - case_bool_decide as Hc.
    + destruct Hc as [-> ->]. apply get_set_xblock_field_eq.
    + rewrite get_set_xblock_field_ne; [done|].
      intros [= -> ->]. by apply Hc.
  - case_bool_decide as Hr.
    + destruct Hr as [-> ->]. apply get_set_xblock_field_eq.
    + rewrite get_set_xblock_field_ne; [done|].
      intros [= -> ->]. by apply Hr.
  - done.
Qed.

Lemma mark_store_get_ne ck latest_key k bs k' f :
  k' ≠ k →
  get_xblock_field (mark_store ck latest_key k bs) k' f = get_xblock_field bs k' f.
Proof.
  intros Hne. rewrite mark_store_get.
  rewrite !bool_decide_eq_false_2 by (by intros [? _]). done.
Qed.

Lemma mark_store_get_mode ck latest_key k bs k' :
  get_xblock_field (mark_store ck latest_key k bs) k' completion_mode
  = get_xblock_field bs k' completion_mode.
Proof.
  rewrite mark_store_get.
  rewrite !bool_decide_eq_false_2 by (by intros [_ ?]). done.
Qed.

Lemma mark_store_get_complete ck latest_key k bs :
  get_xblock_field (mark_store ck latest_key k bs) k COMPLETE
  = if completes ck k bs then Some (VBool true) else get_xblock_field bs k COMPLETE.
Proof.
  rewrite mark_store_get. rewrite bool_decide_eq_true_2 by done.
  rewrite (bool_decide_eq_false_2 (k = k ∧ COMPLETE = RESUME_BLOCK)) by (by intros [_ ?]).
  by destruct (completes ck k bs).
Qed.

Lemma mark_store_get_resume ck latest_key k bs :
  get_xblock_field (mark_store ck latest_key k bs) k RESUME_BLOCK
  = if resumes ck latest_key k bs then Some (VBool true)
    else get_xblock_field bs k RESUME_BLOCK.
Proof.
  rewrite mark_store_get.
  rewrite (bool_decide_eq_false_2 (k = k ∧ RESUME_BLOCK = COMPLETE)) by (by intros [_ ?]).
  rewrite bool_decide_eq_true_2 by done.
  by destruct (resumes ck latest_key k bs).
Qed.

(** A visit changes a field only by writing [True] into it. *)
Lemma mark_store_writes_true ck latest_key k bs k' f :
  get_xblock_field (mark_store ck latest_key k bs) k' f = get_xblock_field bs k' f
  ∨ get_xblock_field (mark_store ck latest_key k bs) k' f = Some (VBool true).
Proof.
  rewrite mark_store_get.
  destruct (_ && completes ck k bs); [by right|].
  destruct (_ && resumes ck latest_key k bs); [by right|by left].
Qed.

Lemma mark_store_mono ck latest_key k bs k' f :
  get_xblock_field bs k' f = Some (VBool true) →
  get_xblock_field (mark_store ck latest_key k bs) k' f = Some (VBool true).
Proof.
  intros Hset.
  destruct (mark_store_writes_true ck latest_key k bs k' f) as [Heq|Heq];
    by rewrite Heq.
Qed.

Lemma mark_store_block_relations ck latest_key k bs :
  block_relations (mark_store ck latest_key k bs) = block_relations bs.
Proof.
  rewrite mark_store_alt.
  by destruct (completes ck k bs), (resumes ck latest_key k bs).
Qed.

Lemma mark_store_transformer_fields ck latest_key k bs :
  transformer_fields (mark_store ck latest_key k bs) = transformer_fields bs.
Proof.
  rewrite mark_store_alt.
  by destruct (completes ck k bs), (resumes ck latest_key k bs).
Qed.

Lemma mark_store_orders ck latest_key k bs :
  topological_order (mark_store ck latest_key k bs) = topological_order bs
  ∧ post_order (mark_store ck latest_key k bs) = post_order bs.
Proof.
  rewrite mark_store_alt.
  by destruct (completes ck k bs), (resumes ck latest_key k bs).
Qed.

Lemma mark_store_get_children ck latest_key k bs n :
  get_children (mark_store ck latest_key k bs) n = get_children bs n.
Proof. unfold get_children. by rewrite mark_store_block_relations. Qed.

Lemma is_block_excluded_mark_store ck latest_key k bs c :
  _is_block_excluded (mark_store ck latest_key k bs) c = _is_block_excluded bs c.
Proof. unfold _is_block_excluded. by rewrite mark_store_get_mode. Qed.

Lemma all_children_complete_true bs l :
  all_children_complete bs l = true
  ↔ ∀ c, c ∈ l → _is_block_excluded bs c = false →
         truthy (get_xblock_field bs c COMPLETE) = true.
Proof.
  unfold all_children_complete. rewrite forallb_forall. split.
  - intros Hall c Hc Hex. apply Hall, list_elem_of_In, list_elem_of_filter. done.
  - intros Hall c Hc. apply list_elem_of_In, list_elem_of_filter in Hc as [Hex Hc].
    by apply Hall.
Qed.

Lemma any_child_resume_true bs l :
  any_child_resume bs l = true
  ↔ ∃ c, c ∈ l ∧ truthy (get_xblock_field bs c RESUME_BLOCK) = true.
Proof.
  unfold any_child_resume. rewrite existsb_exists. split.
  - intros (c & Hc & Ht). exists c. by rewrite list_elem_of_In.
  - intros (c & Hc & Ht). exists c. by rewrite <- list_elem_of_In.
Qed.

(** Both votes read only the children's fields. *)
Lemma all_children_complete_ext bs bs' l :
  (∀ c, c ∈ l →
        get_xblock_field bs' c COMPLETE = get_xblock_field bs c COMPLETE
        ∧ get_xblock_field bs' c completion_mode = get_xblock_field bs c completion_mode) →
  all_children_complete bs' l = all_children_complete bs l.
Proof.
  intros Hsame. apply eq_true_iff_eq. rewrite !all_children_complete_true.
  unfold _is_block_excluded.
  split; intros Hall c Hc Hex; destruct (Hsame c Hc) as [Hcomplete Hmode].
  - rewrite <- Hcomplete. apply Hall; [done|]. by rewrite Hmode.
  - rewrite Hcomplete. apply Hall; [done|]. by rewrite <- Hmode.
Qed.

Lemma any_child_resume_ext bs bs' l :
  (∀ c, c ∈ l →
        get_xblock_field bs' c RESUME_BLOCK = get_xblock_field bs c RESUME_BLOCK) →
  any_child_resume bs' l = any_child_resume bs l.
Proof.
  intros Hsame. apply eq_true_iff_eq. rewrite !any_child_resume_true.
  split; intros (c & Hc & Ht); exists c; (split; [done|]).
  - by rewrite <- (Hsame c Hc).
  - by rewrite (Hsame c Hc).
Qed.

(** ** A run of visits *)

Lemma sweep_app ck latest_key l1 l2 bs :
  sweep ck latest_key (l1 ++ l2) bs = sweep ck latest_key l2 (sweep ck latest_key l1 bs).
Proof. apply foldl_app. Qed.

Lemma sweep_cons ck latest_key k l bs :
  sweep ck latest_key (k :: l) bs = sweep ck latest_key l (mark_store ck latest_key k bs).
Proof. reflexivity. Qed.

Lemma sweep_get_mode ck latest_key l bs k :
  get_xblock_field (sweep ck latest_key l bs) k completion_mode
  = get_xblock_field bs k completion_mode.
Proof.
  revert bs. induction l as [|a l IH]; intros bs; [done|].
  by rewrite sweep_cons, IH, mark_store_get_mode.
Qed.

Lemma sweep_get_children ck latest_key l bs n :
  get_children (sweep ck latest_key l bs) n = get_children bs n.
Proof.
  revert bs. induction l as [|a l IH]; intros bs; [done|].
  by rewrite sweep_cons, IH, mark_store_get_children.
Qed.

Lemma sweep_transformer_fields ck latest_key l bs :
  transformer_fields (sweep ck latest_key l bs) = transformer_fields bs.
Proof.
  revert bs. induction l as [|a l IH]; intros bs; [done|].
  by rewrite sweep_cons, IH, mark_store_transformer_fields.
Qed.

Lemma sweep_orders ck latest_key l bs :
  topological_order (sweep ck latest_key l bs) = topological_order bs
  ∧ post_order (sweep ck latest_key l bs) = post_order bs.
Proof.
  revert bs. induction l as [|a l IH]; intros bs; [done|].
  rewrite sweep_cons. destruct (IH (mark_store ck latest_key a bs)) as [-> ->].
  apply mark_store_orders.
Qed.

Lemma sweep_writes_true ck latest_key l bs k f :
  get_xblock_field (sweep ck latest_key l bs) k f = get_xblock_field bs k f
  ∨ get_xblock_field (sweep ck latest_key l bs) k f = Some (VBool true).
Proof.
  revert bs. induction l as [|a l IH]; intros bs; [by left|].
  rewrite sweep_cons.
  destruct (IH (mark_store ck latest_key a bs)) as [Heq|Heq]; [|by right].
  rewrite Heq. apply mark_store_writes_true.
Qed.

Lemma visited_no_hit ek l : hits ek l = false → visited ek l = l.
Proof.
  induction l as [|k l IH]; [done|]. simpl.
  destruct (bool_decide (str k ∈ ek)); simpl; [done|].
  intros Hl. by rewrite IH.
Qed.

(** ** The first loop *)

Lemma completion_value_assign ui l bs k :
  completion_value ui (assign ui l bs) k = completion_value ui bs k.
Proof.
  unfold completion_value, _is_block_an_aggregator_or_excluded, get_xblock_field.
  by rewrite assign_xblock_fields.
Qed.

Lemma assign_snoc ui l k bs :
  assign ui (l ++ [k]) bs
  = set_transformer_field k (completion_value ui bs k) (assign ui l bs).
Proof. unfold assign. by rewrite foldl_snoc, <- (completion_value_assign ui l bs k). Qed.

Lemma assign_lookup ui l bs k :
  k ∈ l → transformer_fields (assign ui l bs) !! k = Some (completion_value ui bs k).
Proof.
  induction l as [|a l IH] using rev_ind; [by intros ?%elem_of_nil|].
  intros Hk. rewrite assign_snoc. simpl.
  destruct (decide (k = a)) as [->|Hne]; [apply lookup_insert_eq|].
  rewrite lookup_insert_ne by done. apply IH.
  apply elem_of_app in Hk as [Hk|Hk]; [done|]. by apply list_elem_of_singleton in Hk.
Qed.

(** Running the first loop again writes what is already there. *)
Lemma assign_again ui l l' bs :
  (∀ k, k ∈ l → k ∈ l') → assign ui l (assign ui l' bs) = assign ui l' bs.
Proof.
  induction l as [|a l IH] using rev_ind; [done|].
  intros Hsub. rewrite assign_snoc, IH.
  - apply set_transformer_field_id. rewrite completion_value_assign.
    apply assign_lookup, Hsub, elem_of_app. right. by apply list_elem_of_singleton.
  - intros k Hk. apply Hsub, elem_of_app. by left.
Qed.

(** ** The completion rows *)

Lemma latest_elem rows row :
  latest rows = Some row →
  row ∈ rows ∧ ∀ row', row' ∈ rows → (modified row' ≤ modified row)%Z.
Proof.
  revert row. induction rows as [|a rows IH]; intros row Hl; [done|].
  simpl in Hl. destruct (latest rows) as [b|] eqn:Hrest.
  - destruct (IH b eq_refl) as [Hb Hmax].
    destruct (Z.ltb_spec (modified a) (modified b)); simplify_eq.
    + split; [by apply elem_of_cons; right|].
      intros row' [->|Hin]%elem_of_cons; [lia|by apply Hmax].
    + split; [by apply elem_of_cons; left|].
      intros row' [->|Hin]%elem_of_cons; [lia|].
      specialize (Hmax row' Hin). lia.
  - simplify_eq. destruct rows as [|b rows].
    + split; [by apply elem_of_cons; left|].
      intros row' [->|Hin]%elem_of_cons; [lia|by apply elem_of_nil in Hin].
    + simpl in Hrest. destruct (latest rows); [destruct (_ <? _)%Z|]; done.
Qed.

Lemma latest_is_Some rows row : row ∈ rows → is_Some (latest rows).
Proof.
  destruct rows as [|a rows]; [by intros ?%elem_of_nil|]. intros _. simpl.
  destruct (latest rows); [destruct (_ <? _)%Z|]; eauto.
Qed.

Lemma complete_blocks_elem ui row :
  row ∈ complete_blocks ui
  ↔ PrimFloat.eqb (completion row) 1%float = true
    ∧ row ∈ completions_for (user ui) (course_key ui).
Proof.
  unfold complete_blocks.
  apply (list_elem_of_filter (λ r, PrimFloat.eqb (completion r) 1%float = true)).
Qed.

(** No row at 1.0: no latest key. *)
Lemma latest_complete_key_None ui :
  (∀ row, row ∈ completions_for (user ui) (course_key ui) →
          PrimFloat.eqb (completion row) 1%float = false) →
  latest_complete_key ui = None.
Proof.
  intros Hnone. unfold latest_complete_key.
  destruct (latest (complete_blocks ui)) as [row|] eqn:Hl; [|done].
  apply latest_elem in Hl as [Hin _]. apply complete_blocks_elem in Hin as [H1 Hin].
  by rewrite (Hnone row Hin) in H1.
Qed.

(** A row at 1.0: the latest key is that of a row at 1.0 with the greatest
    ordering key. *)
Lemma latest_complete_key_Some ui row :
  row ∈ completions_for (user ui) (course_key ui) →
  PrimFloat.eqb (completion row) 1%float = true →
  ∃ top, latest_complete_key ui = Some (block_key top)
         ∧ top ∈ completions_for (user ui) (course_key ui)
         ∧ PrimFloat.eqb (completion top) 1%float = true
         ∧ ∀ row', row' ∈ completions_for (user ui) (course_key ui) →
                   PrimFloat.eqb (completion row') 1%float = true →
                   (modified row' ≤ modified top)%Z.
Proof.
  intros Hin H1.
  pose proof (proj2 (complete_blocks_elem ui row) (conj H1 Hin)) as Hcb.
  destruct (latest_is_Some _ _ Hcb) as [top Htop].
  exists top. unfold latest_complete_key. rewrite Htop. split; [done|].
  apply latest_elem in Htop as [Htin Hmax].
  apply complete_blocks_elem in Htin as [Ht1 Htin]. repeat split; [done..|].
  intros row' Hin' H1'. apply Hmax. exact (proj2 (complete_blocks_elem ui row') (conj H1' Hin')).
Qed.

Lemma dict_fold_Some (g : BlockCompletion → Key) rows (d : gmap Key float) k c :
  foldl (λ d row, <[g row := completion row]> d) d rows !! k = Some c →
  d !! k = Some c ∨ ∃ row, row ∈ rows ∧ g row = k ∧ completion row = c.
Proof.
  revert d. induction rows as [|a rows IH]; intros d Hl; [by left|].
  simpl in Hl. destruct (IH _ Hl) as [Hd|(row & Hin & Hg & Hc)].
  - destruct (decide (g a = k)) as [Heq|Hne].
    + rewrite <- Heq, lookup_insert_eq in Hd. simplify_eq.
      right. exists a. split; [by apply elem_of_cons; left|done].
    + rewrite lookup_insert_ne in Hd by done. by left.
  - right. exists row. split; [by apply elem_of_cons; right|done].
Qed.

Lemma dict_fold_None (g : BlockCompletion → Key) rows (d : gmap Key float) k :
  foldl (λ d row, <[g row := completion row]> d) d rows !! k = None
  ↔ d !! k = None ∧ ∀ row, row ∈ rows → g row ≠ k.
Proof.
  revert d. induction rows as [|a rows IH]; intros d; simpl.
  - split; [|by intros [? _]]. intros Hd. split; [done|]. by intros row ?%elem_of_nil.
  - rewrite IH. split.
    + intros [Hd Hrows]. apply lookup_insert_None in Hd as [Hd Hne].
      split; [done|]. by intros row [->|Hin]%elem_of_cons; [|apply Hrows].
    + intros [Hd Hrows]. split.
      * apply lookup_insert_None. split; [done|]. apply Hrows, elem_of_cons. by left.
      * intros row Hin. apply Hrows, elem_of_cons. by right.
Qed.

(** An entry of [completions_dict] is the fraction of a row for that key;
    a key without an entry has no row. *)
Lemma completions_dict_Some ui k c :
  completions_dict ui !! k = Some c →
  ∃ row, row ∈ completions_for (user ui) (course_key ui)
         ∧ map_into_course (block_key row) (course_key ui) = k
         ∧ completion row = c.
Proof.
  intros Hl. apply dict_fold_Some in Hl as [Hd|Hrow]; [|done].
  by rewrite lookup_empty in Hd.
Qed.

Lemma completions_dict_None ui k :
  completions_dict ui !! k = None
  ↔ ∀ row, row ∈ completions_for (user ui) (course_key ui) →
           map_into_course (block_key row) (course_key ui) ≠ k.
Proof.
  unfold completions_dict. rewrite dict_fold_None. split; [by intros [_ ?]|].
  intros Hrows. split; [apply lookup_empty|done].
Qed.

Lemma elem_of_complete_keys ui k :
  k ∈ complete_keys ui
  ↔ ∃ c, completions_dict ui !! k = Some c ∧ PrimFloat.eqb c 1%float = true.
Proof.
  unfold complete_keys. rewrite elem_of_dom. split.
  - intros [c Hc]. apply map_lookup_filter_Some in Hc as [Hc H1]. by exists c.
  - intros (c & Hc & H1). exists c. by apply map_lookup_filter_Some.
Qed.

(** ** The stores [transform] leaves *)

Lemma transform_exec ui bs :
  exec (transform ui) bs
  = match latest_complete_key ui with
    | Some latest_key =>
        sweep (complete_keys ui) latest_key
              (visited (completed_exam_keys ui) (post_order_traversal bs))
              (assign ui (topological_traversal bs) bs)
    | None => assign ui (topological_traversal bs) bs
    end.
Proof. unfold exec. rewrite transform_run. by destruct (latest_complete_key ui). Qed.

Lemma transform_transformer_fields ui bs :
  transformer_fields (exec (transform ui) bs)
  = transformer_fields (assign ui (topological_traversal bs) bs).
Proof.
  rewrite transform_exec. destruct (latest_complete_key ui); [|done].
  apply sweep_transformer_fields.
Qed.

Lemma transform_writes_true ui bs k f :
  get_xblock_field (exec (transform ui) bs) k f = get_xblock_field bs k f
  ∨ get_xblock_field (exec (transform ui) bs) k f = Some (VBool true).
Proof.
  rewrite transform_exec. destruct (latest_complete_key ui) as [latest_key|].
  - destruct (sweep_writes_true (complete_keys ui) latest_key
                (visited (completed_exam_keys ui) (post_order_traversal bs))
                (assign ui (topological_traversal bs) bs) k f) as [Heq|Heq];
      [left|by right].
    rewrite Heq. unfold get_xblock_field. by rewrite assign_xblock_fields.
  - left. unfold get_xblock_field. by rewrite assign_xblock_fields.
Qed.

Lemma transform_get_block_completion ui bs k :
  k ∈ topological_traversal bs →
  transformer_fields (exec (transform ui) bs) !! k = Some (completion_value ui bs k)
  ∧ get_block_completion (exec (transform ui) bs) k = completion_value ui bs k.
Proof.
  intros Hk. unfold get_block_completion, get_transformer_block_field.
  rewrite transform_transformer_fields, (assign_lookup ui _ bs k Hk). done.
Qed.

(** C2: after [transform], every block of the traversal has its
    [completion] written: [None] when its mode is AGGREGATOR or EXCLUDED;
    otherwise, when a completion row exists for its key, the fraction of
    such a row (the entry of [completions_dict]), and 0.0 when no row
    exists.  So every block that is neither an aggregator nor excluded
    reads a number, and no block is left without the field. *)
Theorem transform_assigns_completion ui bs k :
  k ∈ topological_traversal bs →
  k ∈ dom (transformer_fields (exec (transform ui) bs))
  ∧ (get_xblock_field bs k completion_mode = Some (VMode AGGREGATOR)
     ∨ get_xblock_field bs k completion_mode = Some (VMode EXCLUDED) →
     get_block_completion (exec (transform ui) bs) k = None)
  ∧ (¬ (get_xblock_field bs k completion_mode = Some (VMode AGGREGATOR)
        ∨ get_xblock_field bs k completion_mode = Some (VMode EXCLUDED)) →
     ((∃ row, row ∈ completions_for (user ui) (course_key ui)
              ∧ map_into_course (block_key row) (course_key ui) = k) →
      ∃ row, row ∈ completions_for (user ui) (course_key ui)
             ∧ map_into_course (block_key row) (course_key ui) = k
             ∧ completions_dict ui !! k = Some (completion row)
             ∧ get_block_completion (exec (transform ui) bs) k
               = Some (completion row))
     ∧ ((∀ row, row ∈ completions_for (user ui) (course_key ui) →
                map_into_course (block_key row) (course_key ui) ≠ k) →
        get_block_completion (exec (transform ui) bs) k = Some 0%float)
     ∧ is_Some (get_block_completion (exec (transform ui) bs) k)).
Proof.
  intros Hk. destruct (transform_get_block_completion ui bs k Hk) as [Hl Hget].
  split; [by apply elem_of_dom; eexists|].
  rewrite Hget. unfold completion_value, _is_block_an_aggregator_or_excluded.
  split.
  - intros Hmode. by rewrite bool_decide_eq_true_2.
  - intros Hmode. rewrite bool_decide_eq_false_2 by done. split; [|split].
    + intros (row & Hrow & Hkey).
      destruct (completions_dict ui !! k) as [c|] eqn:Hc.
      * destruct (completions_dict_Some ui k c Hc) as (row' & Hrow' & Hkey' & <-).
        by exists row'.
      * by destruct (proj1 (completions_dict_None ui k) Hc row Hrow).
    + intros Hnone. apply completions_dict_None in Hnone. by rewrite Hnone.
    + destruct (completions_dict ui !! k); eauto.
Qed.

(** Without a row at 1.0 only the first loop runs. *)
Lemma transform_run_first_loop_only ui bs :
  (∀ row, row ∈ completions_for (user ui) (course_key ui) →
          PrimFloat.eqb (completion row) 1%float = false) →
  transform ui bs = (assign ui (topological_traversal bs) bs, Returns tt).
Proof. intros Hnone. by rewrite transform_run, (latest_complete_key_None ui Hnone). Qed.

(** C5: when no completion row is at 1.0, [transform] returns normally, the
    second loop does not run (no block gets [complete] or [resume_block]:
    every xblock field is as before the call), and every block of the
    traversal still gets its [completion] value from the first loop. *)
Theorem transform_without_full_completion ui bs :
  (∀ row, row ∈ completions_for (user ui) (course_key ui) →
          PrimFloat.eqb (completion row) 1%float = false) →
  ∃ bs', transform ui bs = (bs', Returns tt)
         ∧ (∀ k f, get_xblock_field bs' k f = get_xblock_field bs k f)
         ∧ (∀ k, k ∈ topological_traversal bs →
                 k ∈ dom (transformer_fields bs')
                 ∧ get_block_completion bs' k = completion_value ui bs k).
Proof.
  intros Hnone. exists (assign ui (topological_traversal bs) bs).
  split; [by apply transform_run_first_loop_only|]. split.
  - intros k f. unfold get_xblock_field. by rewrite assign_xblock_fields.
  - intros k Hk. unfold get_block_completion, get_transformer_block_field.
    rewrite elem_of_dom, (assign_lookup ui _ bs k Hk). eauto.
Qed.

(** C8: a block whose [completion_mode] is missing is treated as neither
    excluded nor an aggregator, without any error: both classifiers answer
    [False] and the block, once traversed, receives a number as its
    [completion]. *)
Theorem missing_completion_mode_is_completable ui bs k :
  get_xblock_field bs k completion_mode = None →
  _is_block_excluded bs k = false
  ∧ _is_block_an_aggregator_or_excluded bs k = false
  ∧ (k ∈ topological_traversal bs →
     ∃ v, get_block_completion (exec (transform ui) bs) k = Some v).
Proof.
  intros Hnone. unfold _is_block_excluded, _is_block_an_aggregator_or_excluded.
  rewrite Hnone. split; [done|]. split; [by apply bool_decide_eq_false_2; intros [|]|].
  intros Hk. destruct (transform_get_block_completion ui bs k Hk) as [_ ->].
  unfold completion_value, _is_block_an_aggregator_or_excluded. rewrite Hnone.
  rewrite bool_decide_eq_false_2 by (by intros [|]).
  destruct (completions_dict ui !! k); eauto.
Qed.

(** C7: a block whose key is in the set of complete keys is marked
    [complete] by the first rule of [mark_complete], whatever its mode and
    whatever the state of its children (the store left is given by the
    block's own key alone), and it is marked [resume_block] exactly when
    [str] of its key equals [str] of the latest complete key; otherwise its
    [resume_block] and all fields of other blocks stay as they were. *)
Theorem mark_complete_recorded_block ck latest_key k ek bs :
  k ∈ ck →
  get_xblock_field (exec (mark_complete ck latest_key k ek) bs) k COMPLETE
  = Some (VBool true)
  ∧ (str k = str latest_key →
     get_xblock_field (exec (mark_complete ck latest_key k ek) bs) k RESUME_BLOCK
     = Some (VBool true))
  ∧ (str k ≠ str latest_key →
     get_xblock_field (exec (mark_complete ck latest_key k ek) bs) k RESUME_BLOCK
     = get_xblock_field bs k RESUME_BLOCK)
  ∧ (∀ k' f, k' ≠ k →
       get_xblock_field (exec (mark_complete ck latest_key k ek) bs) k' f
       = get_xblock_field bs k' f)
  ∧ exec (mark_complete ck latest_key k ek) bs
    = (if String.eqb (str k) (str latest_key)
       then set_xblock_field k RESUME_BLOCK (VBool true) else id)
        (set_xblock_field k COMPLETE (VBool true) bs).
Proof.
  intros Hk. unfold exec. rewrite mark_complete_run. simpl.
  assert (completes ck k bs = true) as Hc
    by (unfold completes; by rewrite bool_decide_eq_true_2).
  assert (resumes ck latest_key k bs = String.eqb (str k) (str latest_key)) as Hr
    by (unfold resumes; by rewrite bool_decide_eq_true_2).
  split; [by rewrite mark_store_get_complete, Hc|].
  split; [|split; [|split]].
  - intros Heq. rewrite mark_store_get_resume, Hr.
    by rewrite (proj2 (String.eqb_eq _ _) Heq).
  - intros Hne. rewrite mark_store_get_resume, Hr.
    by rewrite (proj2 (String.eqb_neq _ _) Hne).
  - intros k' f Hne. by apply mark_store_get_ne.
  - by rewrite mark_store_alt, Hc, Hr.
Qed.

(** ** Visits that change nothing *)

Lemma mark_store_settled ck latest_key k bs :
  (completes ck k bs = true → get_xblock_field bs k COMPLETE = Some (VBool true)) →
  (resumes ck latest_key k bs = true →
   get_xblock_field bs k RESUME_BLOCK = Some (VBool true)) →
  mark_store ck latest_key k bs = bs.
Proof.
  intros Hc Hr. rewrite mark_store_alt.
  assert ((if completes ck k bs
           then set_xblock_field k COMPLETE (VBool true) else id) bs = bs) as ->.
  { destruct (completes ck k bs); [|done]. by apply set_xblock_field_id, Hc. }
  destruct (resumes ck latest_key k bs); [|done]. by apply set_xblock_field_id, Hr.
Qed.

Lemma completes_ext ck k bs bs' :
  block_relations bs' = block_relations bs →
  (∀ c, get_xblock_field bs' c completion_mode = get_xblock_field bs c completion_mode) →
  (∀ c, c ∈ get_children bs k →
        get_xblock_field bs' c COMPLETE = get_xblock_field bs c COMPLETE) →
  completes ck k bs' = completes ck k bs.
Proof.
  intros Hrel Hmode Hcomplete. unfold completes, get_children.
  rewrite Hrel, Hmode. f_equal. f_equal.
  apply all_children_complete_ext. intros c Hc. split; [by apply Hcomplete|done].
Qed.

Lemma resumes_ext ck latest_key k bs bs' :
  block_relations bs' = block_relations bs →
  (∀ c, get_xblock_field bs' c completion_mode = get_xblock_field bs c completion_mode) →
  (∀ c, c ∈ get_children bs k →
        get_xblock_field bs' c RESUME_BLOCK = get_xblock_field bs c RESUME_BLOCK) →
  resumes ck latest_key k bs' = resumes ck latest_key k bs.
Proof.
  intros Hrel Hmode Hresume. unfold resumes, get_children.
  rewrite Hrel, Hmode. destruct (bool_decide (k ∈ ck)); [done|]. f_equal.
  by apply any_child_resume_ext.
Qed.

(** Visiting a block twice in a row is visiting it once. *)
Lemma mark_store_idem ck latest_key k bs :
  mark_store ck latest_key k (mark_store ck latest_key k bs)
  = mark_store ck latest_key k bs.
Proof.
  apply mark_store_settled.
  - intros Hagain. rewrite mark_store_get_complete.
    destruct (completes ck k bs) eqn:Hc; [done|]. exfalso.
    rewrite (completes_ext ck k bs) in Hagain; [congruence|..].
    + apply mark_store_block_relations.
    + intros c. apply mark_store_get_mode.
    + intros c _. rewrite mark_store_get, Hc, andb_false_r.
      by rewrite (bool_decide_eq_false_2 (c = k ∧ COMPLETE = RESUME_BLOCK))
        by (by intros [_ ?]).
  - intros Hagain. rewrite mark_store_get_resume.
    destruct (resumes ck latest_key k bs) eqn:Hr; [done|]. exfalso.
    rewrite (resumes_ext ck latest_key k bs) in Hagain; [congruence|..].
    + apply mark_store_block_relations.
    + intros c. apply mark_store_get_mode.
    + intros c _. rewrite mark_store_get, Hr, andb_false_r.
      by rewrite (bool_decide_eq_false_2 (c = k ∧ RESUME_BLOCK = COMPLETE))
        by (by intros [_ ?]).
Qed.

(** The loop of the exam override, as written, only ever writes [True]
    into [complete]. *)
Lemma exam_loop_writes n l bs k f :
  get_xblock_field (exec (exam_loop n l) bs) k f = get_xblock_field bs k f
  ∨ (f = COMPLETE
     ∧ get_xblock_field (exec (exam_loop n l) bs) k f = Some (VBool true)).
Proof.
  revert l bs. induction n as [|n IH]; intros [|c rest] bs; try by left.
  change (exec (exam_loop (S n) (c :: rest)) bs)
    with (exec (exam_loop n (rest ++ get_children bs c))
               (set_xblock_field c COMPLETE (VBool true) bs)).
  destruct (IH (rest ++ get_children bs c)
               (set_xblock_field c COMPLETE (VBool true) bs)) as [Heq|Hset];
    [|by right].
  rewrite Heq. destruct (decide ((k, f) = (c, COMPLETE))) as [[= -> ->]|Hne].
  - right. by rewrite get_set_xblock_field_eq.
  - left. by apply get_set_xblock_field_ne.
Qed.

(** C10: every write to [complete] and [resume_block] writes [True].  A
    call of [mark_complete] leaves each field as it was or makes it [True],
    so a flag that is set stays set; a second visit of a block right after
    the first changes nothing; the loop of the exam override, too, only
    writes [True] into [complete], and writing [True] twice is writing it
    once (a block reached through two parents); and the same holds of a
    whole [transform] call. *)
Theorem flags_are_only_ever_set ui ck latest_key k ek n l bs k' f :
  (get_xblock_field (exec (mark_complete ck latest_key k ek) bs) k' f
   = get_xblock_field bs k' f
   ∨ get_xblock_field (exec (mark_complete ck latest_key k ek) bs) k' f
     = Some (VBool true))
  ∧ (get_xblock_field bs k' f = Some (VBool true) →
     get_xblock_field (exec (mark_complete ck latest_key k ek) bs) k' f
     = Some (VBool true))
  ∧ exec (mark_complete ck latest_key k ek)
         (exec (mark_complete ck latest_key k ek) bs)
    = exec (mark_complete ck latest_key k ek) bs
  ∧ (get_xblock_field (exec (exam_loop n l) bs) k' f = get_xblock_field bs k' f
     ∨ get_xblock_field (exec (exam_loop n l) bs) k' f = Some (VBool true))
  ∧ exec (override_xblock_field k' f (VBool true))
         (exec (override_xblock_field k' f (VBool true)) bs)
    = exec (override_xblock_field k' f (VBool true)) bs
  ∧ (get_xblock_field (exec (transform ui) bs) k' f = get_xblock_field bs k' f
     ∨ get_xblock_field (exec (transform ui) bs) k' f = Some (VBool true))
  ∧ (get_xblock_field bs k' f = Some (VBool true) →
     get_xblock_field (exec (transform ui) bs) k' f = Some (VBool true)).
Proof.
  unfold exec at 1 2 3 4 5 6. rewrite !mark_complete_run. simpl.
  split; [apply mark_store_writes_true|].
  split; [apply mark_store_mono|].
  split; [apply mark_store_idem|].
  split; [destruct (exam_loop_writes n l bs k' f) as [?|[_ ?]]; [by left|by right]|].
  split; [apply set_xblock_field_id, get_set_xblock_field_eq|].
  split; [apply transform_writes_true|].
  intros Hset. destruct (transform_writes_true ui bs k' f) as [Heq|Heq]; by rewrite Heq.
Qed.

(** ** The vote of an aggregator *)

Lemma complete_tidy_mark_store ck latest_key k bs :
  complete_tidy bs → complete_tidy (mark_store ck latest_key k bs).
Proof.
  intros Htidy c.
  destruct (mark_store_writes_true ck latest_key k bs c COMPLETE) as [Heq|Heq];
    [rewrite Heq; apply Htidy|by right].
Qed.

Lemma children_vote_mark_store ck latest_key k bs p :
  children_vote bs p → children_vote (mark_store ck latest_key k bs) p.
Proof.
  intros Hvote c. rewrite mark_store_get_children, is_block_excluded_mark_store.
  intros Hc Hex. by apply mark_store_mono, Hvote.
Qed.

Lemma children_vote_mark_store_inv ck latest_key k bs p :
  k ∉ get_children bs p →
  children_vote (mark_store ck latest_key k bs) p → children_vote bs p.
Proof.
  intros Hk Hvote c Hc Hex.
  rewrite <- (mark_store_get_ne ck latest_key k bs c COMPLETE) by (by intros ->).
  apply Hvote; [by rewrite mark_store_get_children|].
  by rewrite is_block_excluded_mark_store.
Qed.

Lemma all_children_complete_vote bs p :
  complete_tidy bs →
  all_children_complete bs (get_children bs p) = true ↔ children_vote bs p.
Proof.
  intros Htidy. rewrite all_children_complete_true. unfold children_vote.
  split; intros Hall c Hc Hex; specialize (Hall c Hc Hex).
  - by destruct (Htidy c) as [Hn|Hs]; [rewrite Hn in Hall|].
  - by rewrite Hall.
Qed.

Lemma completes_aggregator ck bs p :
  p ∉ ck → get_xblock_field bs p completion_mode = Some (VMode AGGREGATOR) →
  completes ck p bs = all_children_complete bs (get_children bs p).
Proof.
  intros Hck Hmode. unfold completes.
  by rewrite bool_decide_eq_false_2, bool_decide_eq_true_2.
Qed.

(** A complete aggregator has won its vote, in whatever order the blocks
    are visited. *)
Lemma sweep_complete_sound ck latest_key p l bs :
  p ∉ ck → get_xblock_field bs p completion_mode = Some (VMode AGGREGATOR) →
  complete_tidy bs →
  (get_xblock_field bs p COMPLETE = Some (VBool true) → children_vote bs p) →
  get_xblock_field (sweep ck latest_key l bs) p COMPLETE = Some (VBool true) →
  children_vote (sweep ck latest_key l bs) p.
Proof.
  intros Hck. revert bs. induction l as [|a l IH]; intros bs Hmode Htidy Hinv;
    [done|].
  rewrite sweep_cons. apply IH.
  - by rewrite mark_store_get_mode.
  - by apply complete_tidy_mark_store.
  - intros Hset. apply children_vote_mark_store.
    destruct (decide (a = p)) as [->|Hne].
    + rewrite mark_store_get_complete, (completes_aggregator ck bs p Hck Hmode) in Hset.
      destruct (all_children_complete bs (get_children bs p)) eqn:Hall; [|by apply Hinv].
      by apply all_children_complete_vote.
    + rewrite mark_store_get_ne in Hset by done. by apply Hinv.
Qed.

(** Right after its visit, an aggregator that wins its vote is complete. *)
Lemma mark_store_vote_complete ck latest_key p bs :
  p ∉ ck → get_xblock_field bs p completion_mode = Some (VMode AGGREGATOR) →
  children_vote (mark_store ck latest_key p bs) p →
  get_xblock_field (mark_store ck latest_key p bs) p COMPLETE = Some (VBool true).
Proof.
  intros Hck Hmode Hvote.
  destruct (decide (p ∈ get_children bs p)) as [Hself|Hself].
  - apply Hvote; [by rewrite mark_store_get_children|].
    unfold _is_block_excluded. rewrite mark_store_get_mode, Hmode.
    by apply bool_decide_eq_false_2.
  - rewrite mark_store_get_complete, (completes_aggregator ck bs p Hck Hmode).
    apply children_vote_mark_store_inv in Hvote; [|done].
    assert (all_children_complete bs (get_children bs p) = true) as ->; [|done].
    apply all_children_complete_true. intros c Hc Hex. by rewrite (Hvote c Hc Hex).
Qed.

(** The later visits, none of them of a child, keep it so. *)
Lemma sweep_vote_complete ck latest_key p l bs :
  (∀ c, c ∈ get_children bs p → c ∉ l) →
  (children_vote bs p → get_xblock_field bs p COMPLETE = Some (VBool true)) →
  children_vote (sweep ck latest_key l bs) p →
  get_xblock_field (sweep ck latest_key l bs) p COMPLETE = Some (VBool true).
Proof.
  revert bs. induction l as [|a l IH]; intros bs Hlater Hinv; [done|].
  rewrite sweep_cons. apply IH.
  - intros c Hc. rewrite mark_store_get_children in Hc.
    specialize (Hlater c Hc). by apply not_elem_of_cons in Hlater as [_ ?].
  - intros Hvote. apply mark_store_mono, Hinv.
    apply (children_vote_mark_store_inv ck latest_key a); [|done].
    intros Ha. apply (Hlater a Ha), elem_of_cons. by left.
Qed.

Lemma post_order_ok_split bs p :
  post_order_ok bs → p ∈ post_order_traversal bs →
  ∃ l1 l2, post_order_traversal bs = l1 ++ p :: l2
           ∧ (p ∉ l1) ∧ (p ∉ l2)
           ∧ ∀ c, c ∈ get_children bs p → (c ∈ l1) ∧ (c ∉ l2) ∧ c ≠ p.
Proof.
  intros [Hnodup Hfirst] Hp.
  apply list_elem_of_split in Hp as (l1 & l2 & Heq). exists l1, l2.
  rewrite Heq in Hnodup. apply NoDup_app in Hnodup as (_ & Hdisj & Hnodup2).
  apply NoDup_cons in Hnodup2 as [Hp2 _].
  assert (p ∉ l1) as Hp1.
  { intros Hin. apply (Hdisj p Hin), elem_of_cons. by left. }
  split; [done|]. split; [done|]. split; [done|].
  intros c Hc. pose proof (Hfirst l1 p l2 Heq c Hc) as Hc1.
  split; [done|]. split.
  - intros Hc2. apply (Hdisj c Hc1), elem_of_cons. by right.
  - intros ->. by apply Hp1.
Qed.

Lemma assign_get ui l bs k f :
  get_xblock_field (assign ui l bs) k f = get_xblock_field bs k f.
Proof. unfold get_xblock_field. by rewrite assign_xblock_fields. Qed.

Lemma assign_get_children ui l bs n :
  get_children (assign ui l bs) n = get_children bs n.
Proof. unfold get_children. by rewrite assign_block_relations. Qed.

(** A call that returns has run the second loop over the whole post-order
    (when a row is at 1.0). *)
Lemma transform_returns ui bs bs' row :
  row ∈ completions_for (user ui) (course_key ui) →
  PrimFloat.eqb (completion row) 1%float = true →
  transform ui bs = (bs', Returns tt) →
  ∃ latest_key,
    latest_complete_key ui = Some latest_key
    ∧ hits (completed_exam_keys ui) (post_order_traversal bs) = false
    ∧ bs' = sweep (complete_keys ui) latest_key (post_order_traversal bs)
                  (assign ui (topological_traversal bs) bs).
Proof.
  intros Hrow H1 Hrun.
  destruct (latest_complete_key_Some ui row Hrow H1) as (top & Htop & _).
  exists (block_key top). split; [done|].
  rewrite transform_run, Htop in Hrun.
  destruct (hits (completed_exam_keys ui) (post_order_traversal bs)) eqn:Hhits;
    [done|].
  rewrite (visited_no_hit _ _ Hhits) in Hrun. by simplify_eq.
Qed.

(** C1, as amended: on a fresh structure with a proper post-order, when
    some completion row is at 1.0 (so that the second loop runs) and the
    call returns, an AGGREGATOR block of the traversal whose own key is not
    in the set of complete keys ends with [complete] equal to [True] if and
    only if every child that is not EXCLUDED has [complete] equal to
    [True]; in particular it is complete when all its children are
    excluded or it has none. *)
Theorem aggregator_complete_iff_children_complete ui bs bs' p row :
  fresh bs → post_order_ok bs → p ∈ post_order_traversal bs →
  get_xblock_field bs p completion_mode = Some (VMode AGGREGATOR) →
  row ∈ completions_for (user ui) (course_key ui) →
  PrimFloat.eqb (completion row) 1%float = true →
  p ∉ complete_keys ui →
  transform ui bs = (bs', Returns tt) →
  (get_xblock_field bs' p COMPLETE = Some (VBool true) ↔ children_vote bs' p)
  ∧ ((∀ c, c ∈ get_children bs' p → _is_block_excluded bs' c = true) →
     get_xblock_field bs' p COMPLETE = Some (VBool true)).
Proof.
  intros Hfresh Hpost Hp Hmode Hrow H1 Hck Hrun.
  destruct (transform_returns ui bs bs' row Hrow H1 Hrun)
    as (latest_key & _ & _ & Hbs').
  set (s0 := assign ui (topological_traversal bs) bs) in Hbs'.
  assert (get_xblock_field bs' p COMPLETE = Some (VBool true) ↔ children_vote bs' p)
    as Hiff.
  - subst bs'. split.
    + apply sweep_complete_sound; [done|by unfold s0; rewrite assign_get|..].
      * intros c. left. unfold s0. rewrite assign_get. apply Hfresh.
      * unfold s0. rewrite assign_get. by destruct (Hfresh p) as [-> _].
    + destruct (post_order_ok_split bs p Hpost Hp) as (l1 & l2 & -> & _ & _ & Hch).
      rewrite sweep_app, sweep_cons. apply sweep_vote_complete.
      * intros c. rewrite mark_store_get_children, sweep_get_children.
        unfold s0. rewrite assign_get_children. intros Hc. by apply Hch.
      * apply mark_store_vote_complete; [done|].
        rewrite sweep_get_mode. unfold s0. by rewrite assign_get.
  - split; [done|]. intros Hall. apply Hiff. intros c Hc Hex.
    by rewrite (Hall c Hc) in Hex.
Qed.

(** ** The resume flag *)

Lemma same_tree_mark_store ck latest_key k bs bs' :
  same_tree bs bs' → same_tree bs (mark_store ck latest_key k bs').
Proof.
  intros (Hrel & Hpost & Hmode). split; [|split].
  - by rewrite mark_store_block_relations.
  - by rewrite (proj2 (mark_store_orders ck latest_key k bs')).
  - intros n. by rewrite mark_store_get_mode.
Qed.

Lemma same_tree_sweep ck latest_key l bs bs' :
  same_tree bs bs' → same_tree bs (sweep ck latest_key l bs').
Proof.
  revert bs'. induction l as [|a l IH]; intros bs' Hsame; [done|].
  rewrite sweep_cons. by apply IH, same_tree_mark_store.
Qed.

Lemma same_tree_assign ui l bs : same_tree bs (assign ui l bs).
Proof.
  split; [apply assign_block_relations|]. split; [apply assign_post_order|].
  intros k. apply assign_get.
Qed.

Lemma same_tree_get_children bs bs' n :
  same_tree bs bs' → get_children bs' n = get_children bs n.
Proof. intros (Hrel & _). unfold get_children. by rewrite Hrel. Qed.

(** Every flagged block is on a resume path, in whatever order the blocks
    are visited. *)
Lemma sweep_resume_sound ck latest_key bs l s :
  same_tree bs s →
  (∀ k, k ∈ l → k ∈ post_order_traversal bs) →
  (∀ n, truthy (get_xblock_field s n RESUME_BLOCK) = true →
        resume_path bs ck latest_key n) →
  ∀ n, truthy (get_xblock_field (sweep ck latest_key l s) n RESUME_BLOCK) = true →
       resume_path bs ck latest_key n.
Proof.
  revert s. induction l as [|a l IH]; intros s Hsame Hl Hinv; [done|].
  rewrite sweep_cons. apply IH.
  - by apply same_tree_mark_store.
  - intros k Hk. apply Hl, elem_of_cons. by right.
  - intros n. rewrite mark_store_get.
    rewrite (proj2 (andb_false_iff _ _)); [|left; by apply bool_decide_eq_false_2; intros [_ ?]].
    destruct (bool_decide (n = a ∧ RESUME_BLOCK = RESUME_BLOCK)) eqn:Hna; simpl;
      [|apply Hinv].
    apply bool_decide_eq_true_1 in Hna as [-> _].
    destruct (resumes ck latest_key a s) eqn:Hres; [intros _|apply Hinv].
    assert (a ∈ post_order_traversal bs) as Ha by (apply Hl, elem_of_cons; by left).
    unfold resumes in Hres. case_bool_decide as Hck.
    + apply resume_latest; [done..|]. by apply String.eqb_eq.
    + apply andb_true_iff in Hres as [Hmode Hany].
      apply bool_decide_eq_true_1 in Hmode.
      apply any_child_resume_true in Hany as (c & Hc & Ht).
      destruct Hsame as (Hrel & Hpost & Hmodes).
      apply (resume_parent bs ck latest_key a c); [done..| | |by apply Hinv].
      * by rewrite <- Hmodes.
      * unfold get_children in *. by rewrite <- Hrel.
Qed.

(** With children visited first, every block on a resume path is flagged
    by the time it has been visited. *)
Lemma sweep_resume_complete ck latest_key bs s l1 :
  same_tree bs s →
  ∀ l2, post_order_traversal bs = l1 ++ l2 →
  children_first bs (post_order_traversal bs) →
  ∀ n, n ∈ l1 → resume_path bs ck latest_key n →
       get_xblock_field (sweep ck latest_key l1 s) n RESUME_BLOCK = Some (VBool true).
Proof.
  intros Hsame. induction l1 as [|a l1 IH] using rev_ind;
    intros l2 Hpost Hfirst n Hn Hpath; [by apply elem_of_nil in Hn|].
  rewrite <- app_assoc in Hpost. simpl in Hpost.
  rewrite sweep_app. change (sweep ck latest_key [a] ?s0) with (mark_store ck latest_key a s0).
  apply elem_of_app in Hn as [Hn|Hn].
  { by apply mark_store_mono, (IH (a :: l2)). }
  apply list_elem_of_singleton in Hn as ->.
  pose proof (same_tree_sweep ck latest_key l1 bs s Hsame) as (Hrel & _ & Hmodes).
  rewrite mark_store_get_resume.
  assert (resumes ck latest_key a (sweep ck latest_key l1 s) = true) as ->; [|done].
  unfold resumes. inversion Hpath as [? _ Hck Hstr|? c _ Hck Hmode Hc Hcpath]; subst.
  - rewrite bool_decide_eq_true_2 by done. by apply String.eqb_eq.
  - rewrite bool_decide_eq_false_2 by done.
    rewrite Hmodes, bool_decide_eq_true_2 by done. simpl.
    apply any_child_resume_true. exists c. split.
    + unfold get_children in *. by rewrite Hrel.
    + rewrite (IH (a :: l2) Hpost Hfirst c); [done| |done].
      by apply (Hfirst l1 a l2).
Qed.

Lemma hits_empty l : hits ∅ l = false.
Proof.
  induction l as [|k l IH]; [done|]. simpl. rewrite IH.
  by rewrite bool_decide_eq_false_2 by apply not_elem_of_empty.
Qed.

(** C4, as amended: on a fresh structure with a proper post-order and an
    empty set of completed exams, when some completion row is at 1.0 the
    call returns and [resume_block] is [True] exactly on the resume path of
    the latest row at 1.0: the visited blocks that are in the set of
    complete keys and print like the latest key, and every ancestor linked
    to one of them by a chain of AGGREGATOR blocks that are not themselves
    in the set of complete keys; on no other block. *)
Theorem resume_block_marks_resume_path ui bs row :
  fresh bs → post_order_ok bs → completed_exam_keys ui = ∅ →
  row ∈ completions_for (user ui) (course_key ui) →
  PrimFloat.eqb (completion row) 1%float = true →
  ∃ top,
    top ∈ completions_for (user ui) (course_key ui)
    ∧ PrimFloat.eqb (completion top) 1%float = true
    ∧ (∀ row', row' ∈ completions_for (user ui) (course_key ui) →
               PrimFloat.eqb (completion row') 1%float = true →
               (modified row' ≤ modified top)%Z)
    ∧ latest_complete_key ui = Some (block_key top)
    ∧ transform ui bs = (exec (transform ui) bs, Returns tt)
    ∧ ∀ n, get_xblock_field (exec (transform ui) bs) n RESUME_BLOCK = Some (VBool true)
           ↔ resume_path bs (complete_keys ui) (block_key top) n.
Proof.
  intros Hfresh [Hnodup Hfirst] Hexams Hrow H1.
  destruct (latest_complete_key_Some ui row Hrow H1) as (top & Htop & Hin & Ht1 & Hmax).
  exists top. do 4 (split; [done|]).
  unfold exec. rewrite transform_run, Htop, Hexams, hits_empty. simpl.
  rewrite (visited_no_hit _ _ (hits_empty _)). split; [done|].
  set (s0 := assign ui (topological_traversal bs) bs).
  assert (same_tree bs s0) as Hsame by apply same_tree_assign.
  intros n. split.
  - intros Hset. apply (sweep_resume_sound _ _ bs (post_order_traversal bs) s0); try done.
    + intros k. unfold s0. rewrite assign_get. by destruct (Hfresh k) as [_ ->].
    + by rewrite Hset.
  - intros Hpath.
    apply (sweep_resume_complete _ _ bs s0 _ Hsame []); [by rewrite app_nil_r|done| |done].
    by destruct Hpath.
Qed.

(** ** Running [transform] again *)

Lemma visited_prefix ek l : ∃ rest, l = visited ek l ++ rest.
Proof.
  induction l as [|k l [rest IH]]; [by exists []|]. simpl.
  destruct (bool_decide (str k ∈ ek)); [by exists l|].
  exists rest. simpl. by rewrite <- IH.
Qed.

Lemma children_first_prefix bs l1 l2 :
  children_first bs (l1 ++ l2) → children_first bs l1.
Proof.
  intros Hfirst a p b Heq. apply (Hfirst a p (b ++ l2)).
  by rewrite Heq, <- app_assoc.
Qed.

Lemma children_first_same_tree bs bs' l :
  same_tree bs bs' → children_first bs l → children_first bs' l.
Proof.
  intros Hsame Hfirst a p b Heq c Hc.
  rewrite (same_tree_get_children bs bs' p Hsame) in Hc. by apply (Hfirst a p b Heq).
Qed.

Lemma sweep_fixed ck latest_key l bs :
  (∀ k, k ∈ l → mark_store ck latest_key k bs = bs) → sweep ck latest_key l bs = bs.
Proof.
  induction l as [|a l IH]; intros Hfix; [done|].
  rewrite sweep_cons, (Hfix a) by (apply elem_of_cons; by left).
  apply IH. intros k Hk. apply Hfix, elem_of_cons. by right.
Qed.

Lemma mark_store_fixed_inv ck latest_key k bs :
  mark_store ck latest_key k bs = bs →
  (completes ck k bs = true → get_xblock_field bs k COMPLETE = Some (VBool true))
  ∧ (resumes ck latest_key k bs = true →
     get_xblock_field bs k RESUME_BLOCK = Some (VBool true)).
Proof.
  intros Hfix. split; intros Hyes.
  - rewrite <- Hfix at 1. by rewrite mark_store_get_complete, Hyes.
  - rewrite <- Hfix at 1. by rewrite mark_store_get_resume, Hyes.
Qed.

(** After a run of visits in a proper order, visiting any of the blocks
    again changes nothing: its children have not moved since its visit. *)
Lemma sweep_settles ck latest_key bs l :
  NoDup l → children_first bs l →
  ∀ k, k ∈ l →
       mark_store ck latest_key k (sweep ck latest_key l bs)
       = sweep ck latest_key l bs.
Proof.
  induction l as [|p l IH] using rev_ind; intros Hnodup Hfirst k Hk;
    [by apply elem_of_nil in Hk|].
  rewrite sweep_app.
  change (sweep ck latest_key [p] ?s0) with (mark_store ck latest_key p s0).
  apply NoDup_app in Hnodup as (Hnodup & Hdisj & _).
  apply elem_of_app in Hk as [Hk|Hk];
    [|apply list_elem_of_singleton in Hk as ->; apply mark_store_idem].
  assert (k ≠ p) as Hkp.
  { intros ->. apply (Hdisj p Hk). by apply list_elem_of_singleton. }
  assert (∀ c, c ∈ get_children (sweep ck latest_key l bs) k → c ≠ p) as Hchildren.
  { intros c Hc ->. rewrite sweep_get_children in Hc.
    apply list_elem_of_split in Hk as (a & b & ->).
    apply (Hdisj p); [|by apply list_elem_of_singleton].
    apply elem_of_app. left. apply (Hfirst a k (b ++ [p])); [|done].
    by rewrite <- app_assoc. }
  destruct (mark_store_fixed_inv ck latest_key k (sweep ck latest_key l bs))
    as [Hcomplete Hresume].
  { by apply IH; [|apply (children_first_prefix bs l [p])|]. }
  apply mark_store_settled.
  - rewrite (completes_ext ck k (sweep ck latest_key l bs)).
    + intros Hyes. by apply mark_store_mono, Hcomplete.
    + apply mark_store_block_relations.
    + intros c. apply mark_store_get_mode.
    + intros c Hc. apply mark_store_get_ne. by apply Hchildren.
  - rewrite (resumes_ext ck latest_key k (sweep ck latest_key l bs)).
    + intros Hyes. by apply mark_store_mono, Hresume.
    + apply mark_store_block_relations.
    + intros c. apply mark_store_get_mode.
    + intros c Hc. apply mark_store_get_ne. by apply Hchildren.
Qed.

Lemma completion_value_ext ui bs bs' k :
  get_xblock_field bs' k completion_mode = get_xblock_field bs k completion_mode →
  completion_value ui bs' k = completion_value ui bs k.
Proof.
  intros Hmode. unfold completion_value, _is_block_an_aggregator_or_excluded.
  by rewrite Hmode.
Qed.

Lemma assign_fixed ui l bs :
  (∀ k, k ∈ l → transformer_fields bs !! k = Some (completion_value ui bs k)) →
  assign ui l bs = bs.
Proof.
  induction l as [|a l IH] using rev_ind; intros Hfix; [done|].
  rewrite assign_snoc, IH.
  - apply set_transformer_field_id, Hfix, elem_of_app. right.
    by apply list_elem_of_singleton.
  - intros k Hk. apply Hfix, elem_of_app. by left.
Qed.

(** A second run on the store the first one left changes nothing. *)
Lemma transform_again_run ui bs :
  post_order_ok bs →
  transform ui (exec (transform ui) bs) = (exec (transform ui) bs, (transform ui bs).2).
Proof.
  intros [Hnodup Hfirst].
  rewrite transform_exec, (transform_run ui bs).
  destruct (latest_complete_key ui) as [latest_key|] eqn:Hlatest.
  - set (s0 := assign ui (topological_traversal bs) bs).
    set (V := visited (completed_exam_keys ui) (post_order_traversal bs)).
    set (F := sweep (complete_keys ui) latest_key V s0).
    assert (same_tree bs F) as Hsame
        by apply same_tree_sweep, same_tree_assign.
    rewrite transform_run, Hlatest. unfold post_order_traversal, topological_traversal.
    destruct Hsame as (Hrel & Hpost & Hmodes). rewrite Hpost.
    replace (topological_order F) with (topological_order bs)
      by (unfold F, s0; by rewrite (proj1 (sweep_orders _ _ _ _)), assign_topological_order).
    fold (post_order_traversal bs). fold (topological_traversal bs). fold V.
    replace (assign ui (topological_traversal bs) F) with F.
    2:{ symmetry. apply assign_fixed. intros k Hk.
        rewrite (completion_value_ext ui bs F k (Hmodes k)).
        unfold F. rewrite sweep_transformer_fields. by apply assign_lookup. }
    simpl. f_equal. apply sweep_fixed. intros k Hk.
    destruct (visited_prefix (completed_exam_keys ui) (post_order_traversal bs))
      as [rest Hrest]. fold V in Hrest.
    apply sweep_settles; [| |done].
    + rewrite Hrest in Hnodup. by apply NoDup_app in Hnodup as (? & _).
    + apply (children_first_same_tree bs); [apply same_tree_assign|].
      apply (children_first_prefix bs V rest). by rewrite <- Hrest.
  - rewrite transform_run, Hlatest. simpl. f_equal.
    unfold topological_traversal. rewrite assign_topological_order.
    by apply assign_again.
Qed.

Lemma mark_store_xblock_fields ck latest_key k bs :
  xblock_fields (mark_store ck latest_key k bs)
  = (if resumes ck latest_key k bs
     then <[(k, RESUME_BLOCK) := VBool true]> else id)
      ((if completes ck k bs then <[(k, COMPLETE) := VBool true]> else id)
         (xblock_fields bs)).
Proof.
  rewrite mark_store_alt.
  by destruct (completes ck k bs), (resumes ck latest_key k bs).
Qed.

(** A run of visits reads the relations and the xblock fields, nothing
    else. *)
Lemma sweep_same_inputs ck latest_key l bs bs' :
  block_relations bs' = block_relations bs →
  xblock_fields bs' = xblock_fields bs →
  xblock_fields (sweep ck latest_key l bs') = xblock_fields (sweep ck latest_key l bs).
Proof.
  revert bs bs'. induction l as [|a l IH]; intros bs bs' Hrel Hfields; [done|].
  rewrite !sweep_cons. apply IH.
  - by rewrite !mark_store_block_relations.
  - rewrite !mark_store_xblock_fields, Hfields.
    rewrite (completes_ext ck a bs bs'), (resumes_ext ck latest_key a bs bs');
      try done; intros c; unfold get_xblock_field; by rewrite Hfields.
Qed.

(** What [transform] computes from the same inputs is the same, whatever
    [completion] values the structure held before. *)
Lemma transform_same_inputs ui bs bs' :
  same_inputs bs bs' →
  (transform ui bs').2 = (transform ui bs).2
  ∧ xblock_fields (exec (transform ui) bs') = xblock_fields (exec (transform ui) bs)
  ∧ ∀ k, k ∈ topological_traversal bs →
         get_block_completion (exec (transform ui) bs') k
         = get_block_completion (exec (transform ui) bs) k.
Proof.
  intros (Hrel & Htopo & Hpost & Hfields).
  assert (∀ k, completion_value ui bs' k = completion_value ui bs k) as Hvalue.
  { intros k. apply completion_value_ext. unfold get_xblock_field. by rewrite Hfields. }
  split; [|split].
  - rewrite !transform_run. unfold post_order_traversal. rewrite Hpost.
    by destruct (latest_complete_key ui).
  - rewrite !transform_exec. unfold post_order_traversal, topological_traversal.
    rewrite Hpost, Htopo. destruct (latest_complete_key ui).
    + apply sweep_same_inputs; by rewrite !assign_block_relations || rewrite !assign_xblock_fields.
    + by rewrite !assign_xblock_fields.
  - intros k Hk.
    destruct (transform_get_block_completion ui bs k Hk) as [_ ->].
    destruct (transform_get_block_completion ui bs' k) as [_ ->]; [|done].
    unfold topological_traversal in *. by rewrite Htopo.
Qed.

(** C9: [transform] is a function of its inputs and keeps no state besides
    the block structure it mutates.  Two runs on structures that hold the
    same tree, traversals and xblock fields give the same outcome and the
    same [completion], [complete] and [resume_block] on every block,
    whatever [completion] values either structure held before; and running
    it again on the very structure it has just left (proper post-order)
    gives the same outcome and leaves the three fields of every block
    identical. *)
Theorem transform_again_is_identical ui bs :
  (∀ bs', same_inputs bs bs' →
     (transform ui bs').2 = (transform ui bs).2
     ∧ ∀ k,
         (k ∈ topological_traversal bs →
          get_block_completion (exec (transform ui) bs') k
          = get_block_completion (exec (transform ui) bs) k)
         ∧ get_xblock_field (exec (transform ui) bs') k COMPLETE
           = get_xblock_field (exec (transform ui) bs) k COMPLETE
         ∧ get_xblock_field (exec (transform ui) bs') k RESUME_BLOCK
           = get_xblock_field (exec (transform ui) bs) k RESUME_BLOCK)
  ∧ (post_order_ok bs →
     transform ui (exec (transform ui) bs)
     = (exec (transform ui) bs, (transform ui bs).2)
     ∧ ∀ k,
         get_block_completion (exec (transform ui) (exec (transform ui) bs)) k
         = get_block_completion (exec (transform ui) bs) k
         ∧ get_xblock_field (exec (transform ui) (exec (transform ui) bs)) k COMPLETE
           = get_xblock_field (exec (transform ui) bs) k COMPLETE
         ∧ get_xblock_field (exec (transform ui) (exec (transform ui) bs)) k
                            RESUME_BLOCK
           = get_xblock_field (exec (transform ui) bs) k RESUME_BLOCK).
Proof.
  split.
  - intros bs' Hsame.
    destruct (transform_same_inputs ui bs bs' Hsame) as (Hout & Hfields & Hcompletion).
    split; [done|]. intros k. split; [by apply Hcompletion|].
    unfold get_xblock_field. by rewrite Hfields.
  - intros Hpost. pose proof (transform_again_run ui bs Hpost) as Hagain.
    split; [done|]. intros k. unfold exec at 1 4 7. by rewrite Hagain.
Qed.

(** ** The exam override *)

(** C3, as amended: the exam override is reached only from the second
    loop, and that loop runs only when some completion row is at 1.0.  When
    no row is at 1.0 the call returns normally and a block [n] whose key is
    in the set of completed exams, and every descendant [d] of [n], keeps
    the [complete] field it had before the call (unset on a fresh
    structure): nothing is forced complete. *)
Theorem exam_override_needs_a_full_completion ui bs n d :
  str n ∈ completed_exam_keys ui → descendant bs n d →
  (∀ row, row ∈ completions_for (user ui) (course_key ui) →
          PrimFloat.eqb (completion row) 1%float = false) →
  transform ui bs = (exec (transform ui) bs, Returns tt)
  ∧ get_xblock_field (exec (transform ui) bs) d COMPLETE
    = get_xblock_field bs d COMPLETE.
Proof.
  intros _ _ Hnone.
  unfold exec. rewrite (transform_run_first_loop_only ui bs Hnone). simpl.
  split; [done|]. apply assign_get.
Qed.

(** X1: Whenever the second loop meets a block whose key names a completed
    exam, the call ends in the [NameError] of the override. *)
Lemma transform_raises_on_completed_exam ui bs k latest_key :
  latest_complete_key ui = Some latest_key →
  k ∈ post_order_traversal bs → str k ∈ completed_exam_keys ui →
  (transform ui bs).2 = Raises (NameError "self").
Proof.
  intros Hlatest Hk Hexam. rewrite transform_run, Hlatest. simpl.
  assert (hits (completed_exam_keys ui) (post_order_traversal bs) = true) as ->;
    [|done].
  apply existsb_exists. exists k. split; [by apply list_elem_of_In|].
  by apply bool_decide_eq_true_2.
Qed.

(** * Further properties *)

(** ** Frames *)

Lemma sweep_mono ck latest_key l bs k f :
  get_xblock_field bs k f = Some (VBool true) →
  get_xblock_field (sweep ck latest_key l bs) k f = Some (VBool true).
Proof.
  intros Hset.
  destruct (sweep_writes_true ck latest_key l bs k f) as [Heq|Heq]; by rewrite Heq.
Qed.

Lemma sweep_get_notin ck latest_key l bs k f :
  k ∉ l →
  get_xblock_field (sweep ck latest_key l bs) k f = get_xblock_field bs k f.
Proof.
  revert bs. induction l as [|a l IH]; intros bs Hk; [done|].
  apply not_elem_of_cons in Hk as [Hne Hk].
  by rewrite sweep_cons, IH, mark_store_get_ne.
Qed.

Lemma assign_lookup_notin ui l bs k :
  k ∉ l → transformer_fields (assign ui l bs) !! k = transformer_fields bs !! k.
Proof.
  induction l as [|a l IH] using rev_ind; [done|].
  intros Hk. apply not_elem_of_app in Hk as [Hk Ha].
  rewrite assign_snoc. simpl. rewrite lookup_insert_ne; [by apply IH|].
  intros ->. apply Ha. by apply list_elem_of_singleton.
Qed.

Lemma visited_subseteq ek l k : k ∈ visited ek l → k ∈ l.
Proof.
  induction l as [|a l IH]; [done|]. simpl.
  destruct (bool_decide (str a ∈ ek)).
  - intros ->%list_elem_of_singleton. apply elem_of_cons. by left.
  - intros [->|Hk]%elem_of_cons; apply elem_of_cons; [by left|right; by apply IH].
Qed.

Lemma transform_same_tree ui bs : same_tree bs (exec (transform ui) bs).
Proof.
  rewrite transform_exec. destruct (latest_complete_key ui).
  - apply same_tree_sweep, same_tree_assign.
  - apply same_tree_assign.
Qed.

(** X2: [transform] writes the [completion] of the blocks of the topological
    traversal and the two flags of the blocks of the post-order traversal,
    and nothing else: the relations, both traversals, every completion
    mode, the [completion] of any other block and the flags of any other
    block are as before the call, whatever its outcome. *)
Theorem transform_frame ui bs :
  block_relations (exec (transform ui) bs) = block_relations bs
  ∧ topological_traversal (exec (transform ui) bs) = topological_traversal bs
  ∧ post_order_traversal (exec (transform ui) bs) = post_order_traversal bs
  ∧ (∀ k, get_xblock_field (exec (transform ui) bs) k completion_mode
          = get_xblock_field bs k completion_mode)
  ∧ (∀ k, k ∉ topological_traversal bs →
          transformer_fields (exec (transform ui) bs) !! k
          = transformer_fields bs !! k)
  ∧ (∀ k f, k ∉ post_order_traversal bs →
            get_xblock_field (exec (transform ui) bs) k f
            = get_xblock_field bs k f).
Proof.
  destruct (transform_same_tree ui bs) as (Hrel & Hpost & Hmodes).
  split; [done|]. split; [|split; [done|split; [done|split]]].
  - rewrite transform_exec. unfold topological_traversal.
    destruct (latest_complete_key ui).
    + by rewrite (proj1 (sweep_orders _ _ _ _)), assign_topological_order.
    + by rewrite assign_topological_order.
  - intros k Hk. rewrite transform_transformer_fields. by apply assign_lookup_notin.
  - intros k f Hk. rewrite transform_exec. destruct (latest_complete_key ui).
    + rewrite sweep_get_notin, assign_get; [done|].
      intros Hin. by apply Hk, (visited_subseteq (completed_exam_keys ui)).
    + apply assign_get.
Qed.

(** ** Blocks the second loop passes over *)

Lemma mark_store_passes_over ck latest_key a bs k f :
  k ∉ ck → get_xblock_field bs k completion_mode ≠ Some (VMode AGGREGATOR) →
  get_xblock_field (mark_store ck latest_key a bs) k f = get_xblock_field bs k f.
Proof.
  intros Hck Hmode. destruct (decide (k = a)) as [->|Hne];
    [|by apply mark_store_get_ne].
  rewrite mark_store_get. unfold completes, resumes.
  rewrite !(bool_decide_eq_false_2 (a ∈ ck)) by done.
  rewrite !(bool_decide_eq_false_2 (get_xblock_field bs a completion_mode = _)) by done.
  simpl. by rewrite !andb_false_r.
Qed.

Lemma sweep_passes_over ck latest_key l bs k f :
  k ∉ ck → get_xblock_field bs k completion_mode ≠ Some (VMode AGGREGATOR) →
  get_xblock_field (sweep ck latest_key l bs) k f = get_xblock_field bs k f.
Proof.
  intros Hck. revert bs. induction l as [|a l IH]; intros bs Hmode; [done|].
  rewrite sweep_cons, IH; [by apply mark_store_passes_over|].
  by rewrite mark_store_get_mode.
Qed.

(** X3: A block that is neither recorded at 1.0 nor an aggregator (an excluded
    block, a leaf below 100%, a block without a mode) is passed over: one
    call of [mark_complete] for it leaves the whole store as it was, and a
    whole [transform] call, in any visiting order and whatever its
    outcome, leaves all its xblock fields as they were. *)
Theorem transform_passes_over_plain_blocks ui bs k :
  k ∉ complete_keys ui →
  get_xblock_field bs k completion_mode ≠ Some (VMode AGGREGATOR) →
  (∀ latest_key ek,
     exec (mark_complete (complete_keys ui) latest_key k ek) bs = bs)
  ∧ ∀ f, get_xblock_field (exec (transform ui) bs) k f = get_xblock_field bs k f.
Proof.
  intros Hck Hmode. split.
  - intros latest_key ek. unfold exec. rewrite mark_complete_run. simpl.
    unfold mark_store.
    by rewrite bool_decide_eq_false_2, bool_decide_eq_false_2.
  - intros f. rewrite transform_exec. destruct (latest_complete_key ui).
    + rewrite sweep_passes_over, assign_get; [done..|]. by rewrite assign_get.
    + apply assign_get.
Qed.

(** ** Where the complete flag ends up *)

Lemma same_tree_excluded bs bs' c :
  same_tree bs bs' → _is_block_excluded bs' c = _is_block_excluded bs c.
Proof. intros (_ & _ & Hmodes). unfold _is_block_excluded. by rewrite Hmodes. Qed.

(** Every complete block is on a complete path, in whatever order the
    blocks are visited. *)
Lemma sweep_complete_path_sound ck latest_key bs l s :
  same_tree bs s →
  (∀ k, k ∈ l → k ∈ post_order_traversal bs) →
  (∀ n, truthy (get_xblock_field s n COMPLETE) = true → complete_path bs ck n) →
  ∀ n, truthy (get_xblock_field (sweep ck latest_key l s) n COMPLETE) = true →
       complete_path bs ck n.
Proof.
  revert s. induction l as [|a l IH]; intros s Hsame Hl Hinv; [done|].
  rewrite sweep_cons. apply IH.
  - by apply same_tree_mark_store.
  - intros k Hk. apply Hl, elem_of_cons. by right.
  - intros n. rewrite mark_store_get.
    destruct (bool_decide (n = a ∧ COMPLETE = COMPLETE)) eqn:Hna; simpl.
    2:{ rewrite (proj2 (andb_false_iff _ _));
          [apply Hinv|left; by apply bool_decide_eq_false_2; intros [_ ?]]. }
    apply bool_decide_eq_true_1 in Hna as [-> _].
    destruct (completes ck a s) eqn:Hyes.
    2:{ rewrite (proj2 (andb_false_iff _ _));
          [apply Hinv|left; by apply bool_decide_eq_false_2; intros [_ ?]]. }
    intros _.
    assert (a ∈ post_order_traversal bs) as Ha by (apply Hl, elem_of_cons; by left).
    unfold completes in Hyes. case_bool_decide as Hck; [by apply complete_recorded|].
    simpl in Hyes. apply andb_true_iff in Hyes as [Hmode Hall].
    apply bool_decide_eq_true_1 in Hmode.
    pose proof Hsame as (Hrel & Hpost & Hmodes).
    apply complete_aggregated; [done..|by rewrite <- Hmodes|].
    intros c Hc Hex. apply Hinv.
    apply (proj1 (all_children_complete_true s (get_children s a)) Hall).
    + by rewrite (same_tree_get_children bs s a Hsame).
    + by rewrite (same_tree_excluded bs s c Hsame).
Qed.

(** With children visited first, every block on a complete path is
    complete by the time it has been visited. *)
Lemma sweep_complete_path_complete ck latest_key bs s l1 :
  same_tree bs s →
  ∀ l2, post_order_traversal bs = l1 ++ l2 →
  children_first bs (post_order_traversal bs) →
  ∀ n, n ∈ l1 → complete_path bs ck n →
       get_xblock_field (sweep ck latest_key l1 s) n COMPLETE = Some (VBool true).
Proof.
  intros Hsame. induction l1 as [|a l1 IH] using rev_ind;
    intros l2 Hpost Hfirst n Hn Hpath; [by apply elem_of_nil in Hn|].
  rewrite <- app_assoc in Hpost. simpl in Hpost.
  rewrite sweep_app.
  change (sweep ck latest_key [a] ?s0) with (mark_store ck latest_key a s0).
  apply elem_of_app in Hn as [Hn|Hn].
  { by apply mark_store_mono, (IH (a :: l2)). }
  apply list_elem_of_singleton in Hn as ->.
  pose proof (same_tree_sweep ck latest_key l1 bs s Hsame) as Hsame1.
  rewrite mark_store_get_complete.
  assert (completes ck a (sweep ck latest_key l1 s) = true) as ->; [|done].
  unfold completes. inversion Hpath as [? _ Hck|? _ Hck Hmode Hchildren]; subst.
  - by rewrite bool_decide_eq_true_2.
  - rewrite bool_decide_eq_false_2 by done.
    destruct Hsame1 as (Hrel & Hpost1 & Hmodes).
    rewrite Hmodes, bool_decide_eq_true_2 by done. simpl.
    apply all_children_complete_true. intros c Hc Hex.
    assert (c ∈ get_children bs a) as Hc'.
    { unfold get_children in *. by rewrite <- Hrel. }
    rewrite (IH (a :: l2) Hpost Hfirst c); [done|by apply (Hfirst l1 a l2)|].
    apply Hchildren; [done|]. unfold _is_block_excluded in *. by rewrite <- Hmodes.
Qed.

(** X4: On a fresh structure with a proper post-order, when some completion
    row is at 1.0 and the call returns, [complete] is [True] exactly on the
    complete paths: on the visited blocks recorded at 1.0, and on the
    visited aggregators all of whose children that are not excluded are,
    in turn, complete in this sense.  So a container is complete exactly
    when everything under it that counts has been completed. *)
Theorem complete_marks_complete_path ui bs bs' row :
  fresh bs → post_order_ok bs →
  row ∈ completions_for (user ui) (course_key ui) →
  PrimFloat.eqb (completion row) 1%float = true →
  transform ui bs = (bs', Returns tt) →
  ∀ n, get_xblock_field bs' n COMPLETE = Some (VBool true)
       ↔ complete_path bs (complete_keys ui) n.
Proof.
  intros Hfresh [Hnodup Hfirst] Hrow H1 Hrun n.
  destruct (transform_returns ui bs bs' row Hrow H1 Hrun)
    as (latest_key & _ & _ & ->).
  set (s0 := assign ui (topological_traversal bs) bs).
  assert (same_tree bs s0) as Hsame by apply same_tree_assign.
  split.
  - intros Hset.
    apply (sweep_complete_path_sound _ latest_key bs (post_order_traversal bs) s0);
      try done.
    + intros k. unfold s0. rewrite assign_get. by destruct (Hfresh k) as [-> _].
    + by rewrite Hset.
  - intros Hpath.
    apply (sweep_complete_path_complete _ _ bs s0 _ Hsame []);
      [by rewrite app_nil_r|done| |done].
    by destruct Hpath.
Qed.

(** ** Where the resume flag leads *)

Lemma descendant_same_tree bs bs' n d :
  block_relations bs' = block_relations bs → descendant bs' n d → descendant bs n d.
Proof.
  intros Hrel. induction 1 as [|n c d Hc _ IH]; [apply descendant_self|].
  apply (descendant_child bs n c d); [|done].
  unfold get_children in *. by rewrite <- Hrel.
Qed.

Lemma truthy_mark_store ck latest_key k bs n f :
  truthy (get_xblock_field bs n f) = true →
  truthy (get_xblock_field (mark_store ck latest_key k bs) n f) = true.
Proof.
  intros Ht.
  destruct (mark_store_writes_true ck latest_key k bs n f) as [Heq|Heq];
    by rewrite Heq.
Qed.

(** Below every flagged block there is a flagged block that is recorded
    complete and prints like the latest key. *)
Lemma sweep_resume_leads ck latest_key l s :
  (∀ n, truthy (get_xblock_field s n RESUME_BLOCK) = true →
        ∃ m, descendant s n m ∧ m ∈ ck ∧ str m = str latest_key
             ∧ truthy (get_xblock_field s m RESUME_BLOCK) = true) →
  ∀ n, truthy (get_xblock_field (sweep ck latest_key l s) n RESUME_BLOCK) = true →
       ∃ m, descendant s n m ∧ m ∈ ck ∧ str m = str latest_key
            ∧ truthy (get_xblock_field (sweep ck latest_key l s) m RESUME_BLOCK) = true.
Proof.
  revert s. induction l as [|a l IH]; intros s Hinv; [done|].
  rewrite sweep_cons. intros n Hn.
  destruct (IH (mark_store ck latest_key a s)) with (n := n)
    as (m & Hdesc & Hck & Hstr & Hm); [|done|].
  - clear n Hn. intros n. rewrite (mark_store_get ck latest_key a s n).
    rewrite (proj2 (andb_false_iff (bool_decide (n = a ∧ RESUME_BLOCK = COMPLETE)) _));
      [|left; by apply bool_decide_eq_false_2; intros [_ ?]].
    assert (∀ m, descendant s n m → m ∈ ck → str m = str latest_key →
                 truthy (get_xblock_field s m RESUME_BLOCK) = true →
                 ∃ m, descendant (mark_store ck latest_key a s) n m ∧ m ∈ ck
                      ∧ str m = str latest_key
                      ∧ truthy (get_xblock_field (mark_store ck latest_key a s) m
                                                 RESUME_BLOCK) = true) as Hkeep.
    { intros m Hd Hck Hstr Hm. exists m. split; [|split; [done|split; [done|]]].
      - apply (descendant_same_tree _ s); [|done].
        by rewrite mark_store_block_relations.
      - by apply truthy_mark_store. }
    destruct (bool_decide (n = a ∧ RESUME_BLOCK = RESUME_BLOCK)) eqn:Hna; simpl.
    2:{ intros Hn. destruct (Hinv n Hn) as (m & ? & ? & ? & ?). by apply (Hkeep m). }
    apply bool_decide_eq_true_1 in Hna as [-> _].
    destruct (resumes ck latest_key a s) eqn:Hres.
    2:{ intros Hn. destruct (Hinv a Hn) as (m & ? & ? & ? & ?). by apply (Hkeep m). }
    intros _. unfold resumes in Hres. case_bool_decide as Hck.
    + exists a. split; [apply descendant_self|]. split; [done|].
      split; [by apply String.eqb_eq|].
      rewrite mark_store_get_resume. unfold resumes.
      by rewrite bool_decide_eq_true_2, Hres.
    + apply andb_true_iff in Hres as [_ Hany].
      apply any_child_resume_true in Hany as (c & Hc & Ht).
      destruct (Hinv c Ht) as (m & Hd & Hmck & Hstr & Hm).
      apply (Hkeep m); [|done..]. by apply (descendant_child s a c m).
  - exists m. split; [|done].
    apply (descendant_same_tree _ (mark_store ck latest_key a s)); [|done].
    by rewrite mark_store_block_relations.
Qed.

(** X5: On a fresh structure, in any visiting order and whatever the outcome
    of the call: below every block flagged [resume_block] (or at it) there
    is a flagged block that is in the set of complete keys and prints like
    the latest complete key.  The flags always lead down to the block to
    resume from; when the latest key matches no block of the tree that is
    recorded at 1.0, no block is flagged at all. *)
Theorem resume_block_leads_to_latest ui bs n :
  fresh bs →
  get_xblock_field (exec (transform ui) bs) n RESUME_BLOCK = Some (VBool true) →
  ∃ latest_key m,
    latest_complete_key ui = Some latest_key
    ∧ descendant bs n m
    ∧ m ∈ complete_keys ui
    ∧ str m = str latest_key
    ∧ get_xblock_field (exec (transform ui) bs) m RESUME_BLOCK = Some (VBool true).
Proof.
  intros Hfresh. rewrite transform_exec.
  destruct (latest_complete_key ui) as [latest_key|];
    [|by rewrite assign_get; destruct (Hfresh n) as [_ ->]].
  set (s0 := assign ui (topological_traversal bs) bs).
  set (l := visited (completed_exam_keys ui) (post_order_traversal bs)).
  intros Hset.
  destruct (sweep_resume_leads (complete_keys ui) latest_key l s0) with (n := n)
    as (m & Hdesc & Hck & Hstr & Hm).
  - intros k. unfold s0. rewrite assign_get. by destruct (Hfresh k) as [_ ->].
  - by rewrite Hset.
  - exists latest_key, m. split; [done|]. split.
    + apply (descendant_same_tree _ s0); [apply assign_block_relations|done].
    + split; [done|]. split; [done|].
      destruct (sweep_writes_true (complete_keys ui) latest_key l s0 m RESUME_BLOCK)
        as [Heq|Heq]; [|done].
      rewrite Heq in Hm. unfold s0 in Hm. rewrite assign_get in Hm.
      by destruct (Hfresh m) as [_ Hnone]; rewrite Hnone in Hm.
Qed.

(** ** Recorded blocks *)

Lemma sweep_marks_recorded ck latest_key l bs k :
  k ∈ l → k ∈ ck →
  get_xblock_field (sweep ck latest_key l bs) k COMPLETE = Some (VBool true)
  ∧ (str k = str latest_key →
     get_xblock_field (sweep ck latest_key l bs) k RESUME_BLOCK = Some (VBool true)).
Proof.
  intros Hk Hck. apply list_elem_of_split in Hk as (l1 & l2 & ->).
  rewrite sweep_app, sweep_cons. split.
  - apply sweep_mono. rewrite mark_store_get_complete. unfold completes.
    by rewrite bool_decide_eq_true_2.
  - intros Hstr. apply sweep_mono. rewrite mark_store_get_resume. unfold resumes.
    rewrite bool_decide_eq_true_2 by done.
    by rewrite (proj2 (String.eqb_eq _ _) Hstr).
Qed.

(** X6: When the call returns, every block of the post-order traversal whose
    key is in the set of complete keys is [complete], in any visiting
    order and whatever the structure held before; and it is flagged
    [resume_block] when it prints like the latest complete key. *)
Theorem transform_marks_recorded_blocks ui bs bs' k :
  k ∈ post_order_traversal bs → k ∈ complete_keys ui →
  transform ui bs = (bs', Returns tt) →
  ∃ latest_key,
    latest_complete_key ui = Some latest_key
    ∧ get_xblock_field bs' k COMPLETE = Some (VBool true)
    ∧ (str k = str latest_key →
       get_xblock_field bs' k RESUME_BLOCK = Some (VBool true)).
Proof.
  intros Hk Hck Hrun.
  apply elem_of_complete_keys in Hck as Hdict. destruct Hdict as (c & Hc & H1).
  destruct (completions_dict_Some ui k c Hc) as (row & Hrow & _ & <-).
  destruct (transform_returns ui bs bs' row Hrow H1 Hrun)
    as (latest_key & Hlatest & _ & ->).
  exists latest_key. split; [done|]. by apply sweep_marks_recorded.
Qed.

(** ** [completion] against [complete] *)

(** X7: For a block of both traversals that is neither an aggregator nor
    excluded, on a fresh structure and a call that returns: [complete] is
    [True] exactly when the [completion] written for it is 1.0. *)
Theorem complete_iff_completion_is_one ui bs bs' k :
  fresh bs →
  k ∈ topological_traversal bs → k ∈ post_order_traversal bs →
  _is_block_an_aggregator_or_excluded bs k = false →
  transform ui bs = (bs', Returns tt) →
  get_xblock_field bs' k COMPLETE = Some (VBool true)
  ↔ ∃ c, get_block_completion bs' k = Some c ∧ PrimFloat.eqb c 1%float = true.
Proof.
  intros Hfresh Htopo Hpost Hplain Hrun.
  assert (bs' = exec (transform ui) bs) as Hbs' by (unfold exec; by rewrite Hrun).
  assert (get_xblock_field bs k completion_mode ≠ Some (VMode AGGREGATOR)) as Hmode.
  { intros Hagg. apply bool_decide_eq_false_1 in Hplain. apply Hplain. by left. }
  assert (get_block_completion bs' k
          = match completions_dict ui !! k with
            | Some c => Some c
            | None => Some 0%float
            end) as Hcompletion.
  { rewrite Hbs'. destruct (transform_get_block_completion ui bs k Htopo) as [_ ->].
    unfold completion_value. by rewrite Hplain. }
  split.
  - intros Hset. destruct (decide (k ∈ complete_keys ui)) as [Hck|Hck].
    + apply elem_of_complete_keys in Hck as (c & Hc & H1). exists c.
      by rewrite Hcompletion, Hc.
    + exfalso. rewrite Hbs', transform_exec in Hset.
      destruct (latest_complete_key ui).
      * rewrite sweep_passes_over, assign_get in Hset;
          [|done|by rewrite assign_get].
        by destruct (Hfresh k) as [Hnone _]; rewrite Hnone in Hset.
      * rewrite assign_get in Hset.
        by destruct (Hfresh k) as [Hnone _]; rewrite Hnone in Hset.
  - intros (c & Hc & H1). rewrite Hcompletion in Hc.
    destruct (completions_dict ui !! k) as [c'|] eqn:Hdict.
    + simplify_eq.
      assert (k ∈ complete_keys ui) as Hck
          by (apply elem_of_complete_keys; by exists c).
      destruct (completions_dict_Some ui k c Hdict) as (row & Hrow & _ & <-).
      destruct (transform_returns ui bs (exec (transform ui) bs) row Hrow H1 Hrun)
        as (latest_key & _ & _ & Heq).
      rewrite Heq. by apply sweep_marks_recorded.
    + injection Hc as <-. vm_compute in H1. discriminate H1.
Qed.

(** ** The inputs as the code reduces them *)

Lemma completed_exam_keys_fold user exams (keys : gset string) s :
  s ∈ foldl (λ keys exam,
               match get_current_exam_attempt (exam_id exam) user with
               | Some exam_attempt =>
                   if is_completed_status (status exam_attempt)
                   then {[content_id exam]} ∪ keys else keys
               | None => keys
               end) keys exams
  ↔ s ∈ keys
    ∨ ∃ exam exam_attempt,
        exam ∈ exams ∧ content_id exam = s
        ∧ get_current_exam_attempt (exam_id exam) user = Some exam_attempt
        ∧ is_completed_status (status exam_attempt) = true.
Proof.
  revert keys. induction exams as [|e exams IH]; intros keys; simpl.
  - split; [by left|]. intros [?|(? & ? & Hin & _)]; [done|].
    by apply elem_of_nil in Hin.
  - rewrite IH. split.
    + intros [Hs|(exam & att & Hin & Hrest)].
      * destruct (get_current_exam_attempt (exam_id e) user) as [att|] eqn:Hatt;
          [|by left].
        destruct (is_completed_status (status att)) eqn:Hdone; [|by left].
        apply elem_of_union in Hs as [Hs|Hs]; [|by left].
        apply elem_of_singleton in Hs as ->. right. exists e, att.
        split; [by apply elem_of_cons; left|done].
      * right. exists exam, att. split; [by apply elem_of_cons; right|done].
    + intros [Hs|(exam & att & Hin & Hid & Hatt & Hdone)].
      * left. destruct (get_current_exam_attempt (exam_id e) user) as [att|];
          [|done].
        destruct (is_completed_status (status att)); [|done].
        apply elem_of_union. by right.
      * apply elem_of_cons in Hin as [->|Hin].
        -- left. rewrite Hatt, Hdone. apply elem_of_union. left.
           by apply elem_of_singleton.
        -- right. by exists exam, att.
Qed.

(** X8: A content id is in [completed_exam_keys] exactly when some active exam
    of the course carries it and the user's current attempt on that exam
    exists and has a completed status: exams without an attempt, and
    attempts still in progress, contribute nothing. *)
Theorem completed_exam_keys_spec ui s :
  s ∈ completed_exam_keys ui
  ↔ ∃ exam exam_attempt,
      exam ∈ get_all_exams_for_course (course_key ui) true
      ∧ content_id exam = s
      ∧ get_current_exam_attempt (exam_id exam) (user ui) = Some exam_attempt
      ∧ is_completed_status (status exam_attempt) = true.
Proof.
  unfold completed_exam_keys. rewrite completed_exam_keys_fold. split.
  - intros [Hs|Hs]; [by apply not_elem_of_empty in Hs|done].
  - by right.
Qed.

Lemma dict_fold_notin (g : BlockCompletion → Key) rows (d : gmap Key float) k :
  (∀ row, row ∈ rows → g row ≠ k) →
  foldl (λ d row, <[g row := completion row]> d) d rows !! k = d !! k.
Proof.
  revert d. induction rows as [|a rows IH]; intros d Hrows; [done|]. simpl.
  rewrite IH.
  - apply lookup_insert_ne, Hrows, elem_of_cons. by left.
  - intros row Hin. apply Hrows, elem_of_cons. by right.
Qed.

(** X9: When several completion rows map to the same key, the last one in the
    query's order decides: [completions_dict] holds its fraction, and the
    key is in the set of complete keys exactly when that last fraction is
    1.0, whatever the earlier rows said. *)
Theorem last_completion_row_decides ui before row after :
  completions_for (user ui) (course_key ui) = before ++ row :: after →
  (∀ row', row' ∈ after →
           map_into_course (block_key row') (course_key ui)
           ≠ map_into_course (block_key row) (course_key ui)) →
  completions_dict ui !! map_into_course (block_key row) (course_key ui)
  = Some (completion row)
  ∧ (map_into_course (block_key row) (course_key ui) ∈ complete_keys ui
     ↔ PrimFloat.eqb (completion row) 1%float = true).
Proof.
  intros Hrows Hafter.
  assert (completions_dict ui !! map_into_course (block_key row) (course_key ui)
          = Some (completion row)) as Hdict.
  { unfold completions_dict. rewrite Hrows, foldl_app. simpl.
    rewrite dict_fold_notin by done. apply lookup_insert_eq. }
  split; [done|]. rewrite elem_of_complete_keys, Hdict. split.
  - by intros (c & [= <-] & H1).
  - intros H1. by exists (completion row).
Qed.

(** ** The loop of the exam override *)




Lemma hits_none ek l : (∀ k, k ∈ l → str k ∉ ek) → hits ek l = false.
Proof.
  induction l as [|a l IH]; intros Hl; [done|]. simpl.
  rewrite bool_decide_eq_false_2 by (apply Hl, elem_of_cons; by left).
  apply IH. intros k Hk. apply Hl, elem_of_cons. by right.
Qed.

(** ** The order of the visits *)

Lemma sweep_complete_path_iff ck latest_key ui bs n :
  fresh bs → post_order_ok bs →
  get_xblock_field
    (sweep ck latest_key (post_order_traversal bs)
           (assign ui (topological_traversal bs) bs)) n COMPLETE
  = Some (VBool true)
  ↔ complete_path bs ck n.
Proof.
  intros Hfresh [Hnodup Hfirst].
  set (s0 := assign ui (topological_traversal bs) bs).
  assert (same_tree bs s0) as Hsame by apply same_tree_assign.
  split.
  - intros Hset.
    apply (sweep_complete_path_sound _ latest_key bs (post_order_traversal bs) s0);
      try done.
    + intros k. unfold s0. rewrite assign_get. by destruct (Hfresh k) as [-> _].
    + by rewrite Hset.
  - intros Hpath.
    apply (sweep_complete_path_complete _ _ bs s0 _ Hsame []);
      [by rewrite app_nil_r|done| |done].
    by destruct Hpath.
Qed.

Lemma sweep_resume_path_iff ck latest_key ui bs n :
  fresh bs → post_order_ok bs →
  get_xblock_field
    (sweep ck latest_key (post_order_traversal bs)
           (assign ui (topological_traversal bs) bs)) n RESUME_BLOCK
  = Some (VBool true)
  ↔ resume_path bs ck latest_key n.
Proof.
  intros Hfresh [Hnodup Hfirst].
  set (s0 := assign ui (topological_traversal bs) bs).
  assert (same_tree bs s0) as Hsame by apply same_tree_assign.
  split.
  - intros Hset.
    apply (sweep_resume_sound _ _ bs (post_order_traversal bs) s0); try done.
    + intros k. unfold s0. rewrite assign_get. by destruct (Hfresh k) as [_ ->].
    + by rewrite Hset.
  - intros Hpath.
    apply (sweep_resume_complete _ _ bs s0 _ Hsame []);
      [by rewrite app_nil_r|done| |done].
    by destruct Hpath.
Qed.

Lemma complete_path_reorder ck post bs n :
  (∀ k, k ∈ post_order_traversal bs → k ∈ post) →
  complete_path bs ck n → complete_path (reorder post bs) ck n.
Proof.
  intros Hpost. induction 1 as [n Hn Hck|p Hp Hck Hmode _ IH].
  - apply complete_recorded; [by apply Hpost|done].
  - apply complete_aggregated; [by apply Hpost|done..].
Qed.

Lemma resume_path_reorder ck latest_key post bs n :
  (∀ k, k ∈ post_order_traversal bs → k ∈ post) →
  resume_path bs ck latest_key n → resume_path (reorder post bs) ck latest_key n.
Proof.
  intros Hpost. induction 1 as [n Hn Hck Hstr|p c Hp Hck Hmode Hc _ IH].
  - apply resume_latest; [by apply Hpost|done..].
  - apply (resume_parent _ _ _ p c); [by apply Hpost|done..].
Qed.

Lemma reorder_back bs : reorder (post_order_traversal bs) bs = bs.
Proof. by destruct bs. Qed.

Lemma reorder_reorder post post' bs : reorder post (reorder post' bs) = reorder post bs.
Proof. reflexivity. Qed.

Lemma flag_equal (a b : option value) :
  (a = None ∨ a = Some (VBool true)) → (b = None ∨ b = Some (VBool true)) →
  (a = Some (VBool true) ↔ b = Some (VBool true)) → a = b.
Proof.
  intros [-> | ->] [-> | ->] [Hab Hba]; try done.
  - by specialize (Hba eq_refl).
  - by specialize (Hab eq_refl).
Qed.

Lemma sweep_flag_tidy ck latest_key l bs k f :
  get_xblock_field bs k f = None →
  get_xblock_field (sweep ck latest_key l bs) k f = None
  ∨ get_xblock_field (sweep ck latest_key l bs) k f = Some (VBool true).
Proof.
  intros Hnone.
  destruct (sweep_writes_true ck latest_key l bs k f) as [Heq|Heq];
    [left; by rewrite Heq|by right].
Qed.

(** X12: The flags do not depend on which proper post-order the structure
    provider hands out.  On a fresh structure, when some completion row is
    at 1.0: two post-orders over the same blocks, each listing every block
    once with children before parents, give calls that, when both return,
    leave the same [complete] and the same [resume_block] on every
    block. *)
Theorem flags_independent_of_post_order ui bs post bs1 bs2 row :
  fresh bs → post_order_ok bs → post_order_ok (reorder post bs) →
  (∀ k, k ∈ post ↔ k ∈ post_order_traversal bs) →
  row ∈ completions_for (user ui) (course_key ui) →
  PrimFloat.eqb (completion row) 1%float = true →
  transform ui bs = (bs1, Returns tt) →
  transform ui (reorder post bs) = (bs2, Returns tt) →
  ∀ n, get_xblock_field bs1 n COMPLETE = get_xblock_field bs2 n COMPLETE
       ∧ get_xblock_field bs1 n RESUME_BLOCK = get_xblock_field bs2 n RESUME_BLOCK.
Proof.
  intros Hfresh Hok Hok' Hsame Hrow H1 Hrun1 Hrun2 n.
  destruct (transform_returns ui bs bs1 row Hrow H1 Hrun1)
    as (latest_key & Hlatest & _ & ->).
  destruct (transform_returns ui (reorder post bs) bs2 row Hrow H1 Hrun2)
    as (latest_key' & Hlatest' & _ & ->).
  assert (latest_key' = latest_key) as -> by congruence.
  assert (fresh (reorder post bs)) as Hfresh' by done.
  split; apply flag_equal.
  - apply sweep_flag_tidy. rewrite assign_get. apply Hfresh.
  - apply sweep_flag_tidy. rewrite assign_get. apply Hfresh'.
  - rewrite (sweep_complete_path_iff _ _ ui bs n Hfresh Hok).
    rewrite (sweep_complete_path_iff _ _ ui (reorder post bs) n Hfresh' Hok').
    split.
    + apply complete_path_reorder. intros k. apply Hsame.
    + intros Hpath. rewrite <- (reorder_back bs), <- (reorder_reorder _ post).
      revert Hpath. apply complete_path_reorder. intros k. apply Hsame.
  - apply sweep_flag_tidy. rewrite assign_get. apply Hfresh.
  - apply sweep_flag_tidy. rewrite assign_get. apply Hfresh'.
  - rewrite (sweep_resume_path_iff _ _ ui bs n Hfresh Hok).
    rewrite (sweep_resume_path_iff _ _ ui (reorder post bs) n Hfresh' Hok').
    split.
    + apply resume_path_reorder. intros k. apply Hsame.
    + intros Hpath. rewrite <- (reorder_back bs), <- (reorder_reorder _ post).
      revert Hpath. apply resume_path_reorder. intros k. apply Hsame.
Qed.

End Transformer.

(** X11: A completed exam whose content id is the key of no block of the
    post-order traversal is skipped silently: the call gives the very
    outcome and store it gives when the course has no active exam at
    all. *)
Theorem unmatched_exam_keys_are_ignored {Key : Type}
    {Key_eq_dec : EqDecision Key} {Key_countable : Countable Key}
    (str : Key → string) (map_into_course : Key → string → Key)
    (completions_for : nat → string → list BlockCompletion)
    (get_all_exams_for_course : string → bool → list Exam)
    (get_current_exam_attempt : nat → nat → option ExamAttempt)
    (is_completed_status : string → bool) (fuel : nat)
    (ui : UsageInfo) (bs : BlockStructure) :
  (∀ k, k ∈ post_order_traversal bs →
        str k ∉ completed_exam_keys get_all_exams_for_course
                  get_current_exam_attempt is_completed_status ui) →
  transform str map_into_course completions_for get_all_exams_for_course
            get_current_exam_attempt is_completed_status fuel ui bs
  = transform str map_into_course completions_for (λ _ _, [])
              get_current_exam_attempt is_completed_status fuel ui bs.
Proof.
  intros Hnone. rewrite !transform_run.
  destruct (latest_complete_key completions_for ui) as [latest_key|]; [|done].
  rewrite (hits_none str _ _ Hnone).
  rewrite (visited_no_hit str _ _ (hits_none str _ _ Hnone)).
  change (completed_exam_keys (λ _ _, []) get_current_exam_attempt
                              is_completed_status ui) with (∅ : gset string).
  by rewrite hits_empty, (visited_no_hit str _ _ (hits_empty str _)).
Qed.

(** * Scenarios

    Concrete courses, with block usage keys as their string form. *)

Module Scenario.

Definition str (k : string) : string := k.
Definition map_into_course (k : string) (course : string) : string := k.

Definition ui : UsageInfo := {| user := 7; course_key := "course-v1:demo" |}.

(** One active exam attempt, submitted, on exam 1. *)
Definition get_current_exam_attempt (exam user : nat) : option ExamAttempt :=
  if Nat.eqb exam 1 then Some {| status := "submitted" |} else None.

Definition is_completed_status (s : string) : bool :=
  bool_decide (s ∈ ["declined"; "timed_out"; "submitted";
                    "second_review_required"; "verified"; "rejected"; "error"]).

Definition structure (relations : list (string * list string))
    (modes : list (string * CompletionMode)) (topological post : list string)
  : BlockStructure (Key:=string) :=
  {| block_relations := list_to_map relations;
     topological_order := topological;
     post_order := post;
     xblock_fields :=
       list_to_map ((λ km, ((km.1, completion_mode), VMode km.2)) <$> modes);
     transformer_fields := ∅ |}.

Definition row (k : string) (c : float) (t : Z) : BlockCompletion (Key:=string) :=
  {| block_key := k; completion := c; modified := t |}.

(** [transform] for the given completion rows and active exams. *)
Definition transform (rows : list (BlockCompletion (Key:=string))) (exams : list Exam)
  : M (Key:=string) unit :=
  transform str map_into_course (λ _ _, rows) (λ _ _, exams)
            get_current_exam_attempt is_completed_status 16 ui.

Definition exam_keys (exams : list Exam) : gset string :=
  completed_exam_keys (λ _ _, exams) get_current_exam_attempt
                      is_completed_status ui.

(** root (aggregator) → A (leaf), B (leaf, excluded). *)
Definition outline : BlockStructure (Key:=string) :=
  structure [("root", ["A"; "B"])] [("root", AGGREGATOR); ("B", EXCLUDED)]
            ["root"; "A"; "B"] ["A"; "B"; "root"].

(** root (aggregator) → B (leaf, excluded). *)
Definition scaffold : BlockStructure (Key:=string) :=
  structure [("root", ["B"])] [("root", AGGREGATOR); ("B", EXCLUDED)]
            ["root"; "B"] ["B"; "root"].

(** root (aggregator) → C (leaf), D (leaf): a timed exam. *)
Definition exam : BlockStructure (Key:=string) :=
  structure [("root", ["C"; "D"])] [("root", AGGREGATOR)]
            ["root"; "C"; "D"] ["C"; "D"; "root"].

(** root (completable, with a child of its own) → A (leaf). *)
Definition mentoring : BlockStructure (Key:=string) :=
  structure [("root", ["A"])] [("root", COMPLETABLE)]
            ["root"; "A"] ["A"; "root"].

(** course → unit1 → shared, course → unit2 → shared: a block with two
    parents. *)
Definition shared : BlockStructure (Key:=string) :=
  structure [("course", ["unit1"; "unit2"]); ("unit1", ["leaf"]); ("unit2", ["leaf"])]
            [("course", AGGREGATOR); ("unit1", AGGREGATOR); ("unit2", AGGREGATOR)]
            ["course"; "unit1"; "unit2"; "leaf"] ["leaf"; "unit1"; "unit2"; "course"].

(** The outline, holding the [completion] values of some earlier run. *)
Definition stale_outline : BlockStructure (Key:=string) :=
  {| block_relations := block_relations outline;
     topological_order := topological_order outline;
     post_order := post_order outline;
     xblock_fields := xblock_fields outline;
     transformer_fields := {[ "A" := Some 0.25%float; "root" := Some 1%float ]} |}.

Definition root_exam : list Exam := [ {| exam_id := 1; content_id := "root" |} ].

(** A completed exam on a block that is not part of the structure. *)
Definition stray_exam : list Exam :=
  [ {| exam_id := 1; content_id := "elsewhere" |} ].

End Scenario.

(** * The scenarios, checked *)

Ltac decide_by_compute :=
  match goal with |- ?P => apply (@bool_decide_unpack P _); vm_compute; exact I end.

(** C1, as amended, at work: the root of the outline, with A at 1.0 and B
    excluded. *)
Lemma aggregator_complete_iff_children_complete_witness :
  get_xblock_field
    (exec (Scenario.transform [Scenario.row "A" 1 5] []) Scenario.outline)
    "root" COMPLETE = Some (VBool true)
  ↔ children_vote
      (exec (Scenario.transform [Scenario.row "A" 1 5] []) Scenario.outline) "root".
Proof.
  refine (proj1 (aggregator_complete_iff_children_complete
            Scenario.str Scenario.map_into_course
            (λ _ _, [Scenario.row "A" 1 5]) (λ _ _, [])
            Scenario.get_current_exam_attempt Scenario.is_completed_status 16
            Scenario.ui Scenario.outline _ "root" (Scenario.row "A" 1 5)
            _ _ _ _ _ _ _ _)).
  - apply freshb_ok. vm_compute. reflexivity.
  - split; [decide_by_compute|]. apply children_firstb_ok. vm_compute. reflexivity.
  - decide_by_compute.
  - vm_compute. reflexivity.
  - apply elem_of_cons. by left.
  - reflexivity.
  - decide_by_compute.
  - vm_compute. reflexivity.
Defined.

(** C2 at work: leaf A of the outline has a row at 1.0 and no mode. *)
Lemma transform_assigns_completion_witness :
  get_block_completion
    (exec (Scenario.transform [Scenario.row "A" 1 5] []) Scenario.outline) "A"
  = Some 1%float.
Proof.
  destruct (transform_assigns_completion
              Scenario.str Scenario.map_into_course
              (λ _ _, [Scenario.row "A" 1 5]) (λ _ _, [])
              Scenario.get_current_exam_attempt Scenario.is_completed_status 16
              Scenario.ui Scenario.outline "A") as (_ & _ & Hleaf).
  - decide_by_compute.
  - destruct Hleaf as (Hrow & _).
    + intros [Hmode|Hmode]; vm_compute in Hmode; discriminate.
    + destruct Hrow as (row & _ & _ & Hdict & Hget).
      * exists (Scenario.row "A" 1 5). split; [|reflexivity].
        apply elem_of_cons. by left.
      * transitivity (Some (completion row)); [exact Hget|].
        rewrite <- Hdict. vm_compute. reflexivity.
Defined.

(** C5 at work: the only row of the outline is at 0.5. *)
Lemma transform_without_full_completion_witness :
  ∃ bs', Scenario.transform [Scenario.row "A" 0.5 3] [] Scenario.outline
         = (bs', Returns tt)
         ∧ get_xblock_field bs' "root" COMPLETE = None
         ∧ get_block_completion bs' "A" = Some 0.5%float.
Proof.
  destruct (transform_without_full_completion
              Scenario.str Scenario.map_into_course
              (λ _ _, [Scenario.row "A" 0.5 3]) (λ _ _, [])
              Scenario.get_current_exam_attempt Scenario.is_completed_status 16
              Scenario.ui Scenario.outline) as (bs' & Hrun & Hsame & Hcompletion).
  - intros row [->|Hin]%elem_of_cons; [reflexivity|by apply elem_of_nil in Hin].
  - exists bs'. split; [exact Hrun|]. split.
    + rewrite Hsame. vm_compute. reflexivity.
    + destruct (Hcompletion "A") as [_ ->]; [decide_by_compute|].
      vm_compute. reflexivity.
Defined.

(** C8 at work: leaf A of the outline carries no completion mode. *)
Lemma missing_completion_mode_is_completable_witness :
  _is_block_excluded Scenario.outline "A" = false
  ∧ _is_block_an_aggregator_or_excluded Scenario.outline "A" = false
  ∧ ∃ v, get_block_completion
           (exec (Scenario.transform [Scenario.row "A" 1 5] []) Scenario.outline) "A"
         = Some v.
Proof.
  destruct (missing_completion_mode_is_completable
              Scenario.str Scenario.map_into_course
              (λ _ _, [Scenario.row "A" 1 5]) (λ _ _, [])
              Scenario.get_current_exam_attempt Scenario.is_completed_status 16
              Scenario.ui Scenario.outline "A") as (Hex & Hagg & Hnum).
  - vm_compute. reflexivity.
  - split; [exact Hex|]. split; [exact Hagg|]. apply Hnum. decide_by_compute.
Defined.

(** C7 at work: the root of the outline, an aggregator whose child A is not
    complete, is itself recorded complete. *)
Lemma mark_complete_recorded_block_witness :
  get_xblock_field Scenario.outline "root" completion_mode = Some (VMode AGGREGATOR)
  ∧ get_xblock_field Scenario.outline "A" COMPLETE = None
  ∧ get_xblock_field
      (exec (mark_complete Scenario.str 16 {["root"]} "root" "root" ∅)
            Scenario.outline) "root" COMPLETE = Some (VBool true).
Proof.
  split; [vm_compute; reflexivity|]. split; [vm_compute; reflexivity|].
  apply (mark_complete_recorded_block Scenario.str 16 {["root"]} "root" "root" ∅
           Scenario.outline).
  apply elem_of_singleton. reflexivity.
Defined.

(** C9 at work: the outline transformed twice, and the outline with stale
    [completion] values transformed once. *)
Lemma transform_again_is_identical_witness :
  Scenario.transform [Scenario.row "A" 1 5] []
    (exec (Scenario.transform [Scenario.row "A" 1 5] []) Scenario.outline)
  = (exec (Scenario.transform [Scenario.row "A" 1 5] []) Scenario.outline,
     (Scenario.transform [Scenario.row "A" 1 5] [] Scenario.outline).2)
  ∧ get_block_completion
      (exec (Scenario.transform [Scenario.row "A" 1 5] []) Scenario.stale_outline) "A"
    = get_block_completion
        (exec (Scenario.transform [Scenario.row "A" 1 5] []) Scenario.outline) "A".
Proof.
  destruct (transform_again_is_identical
              Scenario.str Scenario.map_into_course
              (λ _ _, [Scenario.row "A" 1 5]) (λ _ _, [])
              Scenario.get_current_exam_attempt Scenario.is_completed_status 16
              Scenario.ui Scenario.outline) as [Hsame Hagain].
  split.
  - apply Hagain. split; [decide_by_compute|].
    apply children_firstb_ok. vm_compute. reflexivity.
  - destruct (Hsame Scenario.stale_outline) as [_ Hfields].
    + repeat split; reflexivity.
    + apply (Hfields "A"). decide_by_compute.
Defined.

(** C4, as amended, at work: a leaf with two parents. *)
Lemma resume_block_marks_resume_path_witness :
  ∃ latest_key,
    ∀ n, get_xblock_field
           (exec (Scenario.transform [Scenario.row "leaf" 1 5] []) Scenario.shared)
           n RESUME_BLOCK = Some (VBool true)
         ↔ resume_path Scenario.str Scenario.shared
             (complete_keys Scenario.map_into_course
                            (λ _ _, [Scenario.row "leaf" 1 5]) Scenario.ui)
             latest_key n.
Proof.
  destruct (resume_block_marks_resume_path
              Scenario.str Scenario.map_into_course
              (λ _ _, [Scenario.row "leaf" 1 5]) (λ _ _, [])
              Scenario.get_current_exam_attempt Scenario.is_completed_status 16
              Scenario.ui Scenario.shared (Scenario.row "leaf" 1 5))
    as (top & _ & _ & _ & _ & _ & Hpath).
  - apply freshb_ok. vm_compute. reflexivity.
  - split; [decide_by_compute|]. apply children_firstb_ok. vm_compute. reflexivity.
  - reflexivity.
  - apply elem_of_cons. by left.
  - reflexivity.
  - exists (block_key top). exact Hpath.
Defined.

(** C3, as amended, at work: the exam subtree without any completion row. *)
Lemma exam_override_needs_a_full_completion_witness :
  get_xblock_field (exec (Scenario.transform [] Scenario.root_exam) Scenario.exam)
                   "C" COMPLETE
  = get_xblock_field Scenario.exam "C" COMPLETE.
Proof.
  apply (exam_override_needs_a_full_completion
           Scenario.str Scenario.map_into_course
           (λ _ _, []) (λ _ _, Scenario.root_exam)
           Scenario.get_current_exam_attempt Scenario.is_completed_status 16
           Scenario.ui Scenario.exam "root" "C").
  - decide_by_compute.
  - apply (descendant_child Scenario.exam "root" "C" "C"); [decide_by_compute|].
    apply descendant_self.
  - intros row Hin. by apply elem_of_nil in Hin.
Defined.

(** C1 fails as stated, twice over.  Without any completion row the second
    loop is skipped: the root of the scaffold, an aggregator whose only
    child is excluded, wins its vote vacuously and yet is not complete.
    And an aggregator that is itself recorded at 1.0 is complete although
    its child A, which is not excluded, is not. *)
Lemma aggregator_complete_counterexample :
  (get_xblock_field Scenario.scaffold "root" completion_mode = Some (VMode AGGREGATOR)
   ∧ Scenario.transform [] [] Scenario.scaffold
     = (exec (Scenario.transform [] []) Scenario.scaffold, Returns tt)
   ∧ children_vote (exec (Scenario.transform [] []) Scenario.scaffold) "root"
   ∧ get_xblock_field (exec (Scenario.transform [] []) Scenario.scaffold)
                      "root" COMPLETE = None)
  ∧ (get_xblock_field Scenario.outline "root" completion_mode
     = Some (VMode AGGREGATOR)
     ∧ Scenario.transform [Scenario.row "root" 1 5] [] Scenario.outline
       = (exec (Scenario.transform [Scenario.row "root" 1 5] []) Scenario.outline,
          Returns tt)
     ∧ get_xblock_field
         (exec (Scenario.transform [Scenario.row "root" 1 5] []) Scenario.outline)
         "root" COMPLETE = Some (VBool true)
     ∧ ¬ children_vote
           (exec (Scenario.transform [Scenario.row "root" 1 5] []) Scenario.outline)
           "root").
Proof.
  split.
  - split; [vm_compute; reflexivity|]. split; [vm_compute; reflexivity|]. split.
    + intros c Hc Hex.
      assert (get_children (exec (Scenario.transform [] []) Scenario.scaffold) "root"
              = ["B"]) as Hchildren by (vm_compute; reflexivity).
      rewrite Hchildren in Hc. apply list_elem_of_singleton in Hc as ->.
      vm_compute in Hex. discriminate.
    + vm_compute. reflexivity.
  - split; [vm_compute; reflexivity|]. split; [vm_compute; reflexivity|].
    split; [vm_compute; reflexivity|].
    intros Hvote. specialize (Hvote "A").
    assert (get_xblock_field
              (exec (Scenario.transform [Scenario.row "root" 1 5] []) Scenario.outline)
              "A" COMPLETE = None) as Hnone by (vm_compute; reflexivity).
    rewrite Hnone in Hvote. discriminate Hvote.
    + decide_by_compute.
    + vm_compute. reflexivity.
Qed.

(** C3 fails as stated: the root of the exam subtree is in the set of
    completed exams, no completion row exists, the call returns, and
    neither the root nor its child C is complete. *)
Lemma exam_override_counterexample :
  "root" ∈ Scenario.exam_keys Scenario.root_exam
  ∧ descendant Scenario.exam "root" "C"
  ∧ Scenario.transform [] Scenario.root_exam Scenario.exam
    = (exec (Scenario.transform [] Scenario.root_exam) Scenario.exam, Returns tt)
  ∧ get_xblock_field (exec (Scenario.transform [] Scenario.root_exam) Scenario.exam)
                     "root" COMPLETE = None
  ∧ get_xblock_field (exec (Scenario.transform [] Scenario.root_exam) Scenario.exam)
                     "C" COMPLETE = None.
Proof.
  split; [decide_by_compute|]. split.
  - apply (descendant_child Scenario.exam "root" "C" "C"); [decide_by_compute|].
    apply descendant_self.
  - repeat split; vm_compute; reflexivity.
Qed.

(** C4 fails as stated: leaf A is the latest block at 1.0 and is flagged,
    but its parent, which is not an aggregator, is not. *)
Lemma resume_block_counterexample :
  Scenario.exam_keys [] = ∅
  ∧ descendant Scenario.mentoring "root" "A"
  ∧ latest_complete_key (λ _ _, [Scenario.row "A" 1 5]) Scenario.ui = Some "A"
  ∧ get_children Scenario.mentoring "A" = []
  ∧ get_xblock_field
      (exec (Scenario.transform [Scenario.row "A" 1 5] []) Scenario.mentoring)
      "A" RESUME_BLOCK = Some (VBool true)
  ∧ get_xblock_field
      (exec (Scenario.transform [Scenario.row "A" 1 5] []) Scenario.mentoring)
      "root" RESUME_BLOCK = None.
Proof.
  split; [reflexivity|]. split.
  - apply (descendant_child Scenario.mentoring "root" "A" "A"); [decide_by_compute|].
    apply descendant_self.
  - repeat split; vm_compute; reflexivity.
Qed.

(** C6 on the code: a row at 1.0 for C, the root of the exam subtree in the
    set of completed exams.  The call does not return: the override raises
    [NameError] at the root, which stays incomplete, as does D. *)
Lemma exam_override_raises :
  "root" ∈ Scenario.exam_keys Scenario.root_exam
  ∧ (Scenario.transform [Scenario.row "C" 1 5] Scenario.root_exam Scenario.exam).2
    = Raises (NameError "self")
  ∧ get_xblock_field
      (exec (Scenario.transform [Scenario.row "C" 1 5] Scenario.root_exam)
            Scenario.exam) "root" COMPLETE = None
  ∧ get_xblock_field
      (exec (Scenario.transform [Scenario.row "C" 1 5] Scenario.root_exam)
            Scenario.exam) "D" COMPLETE = None.
Proof.
  split; [decide_by_compute|]. repeat split; vm_compute; reflexivity.
Qed.

(** The same call, through the general lemma: the root is visited and
    names a completed exam. *)
Lemma transform_raises_on_completed_exam_witness :
  (Scenario.transform [Scenario.row "C" 1 5] Scenario.root_exam Scenario.exam).2
  = Raises (NameError "self").
Proof.
  apply (transform_raises_on_completed_exam
           Scenario.str Scenario.map_into_course
           (λ _ _, [Scenario.row "C" 1 5]) (λ _ _, Scenario.root_exam)
           Scenario.get_current_exam_attempt Scenario.is_completed_status 16
           Scenario.ui Scenario.exam "root" "C").
  - reflexivity.
  - decide_by_compute.
  - decide_by_compute.
Defined.

(** * The further properties, at work *)

(** The excluded leaf B of the outline is passed over. *)
Lemma transform_passes_over_plain_blocks_witness :
  get_xblock_field
    (exec (Scenario.transform [Scenario.row "A" 1 5] []) Scenario.outline)
    "B" COMPLETE
  = get_xblock_field Scenario.outline "B" COMPLETE.
Proof.
  apply (transform_passes_over_plain_blocks
           Scenario.str Scenario.map_into_course
           (λ _ _, [Scenario.row "A" 1 5]) (λ _ _, [])
           Scenario.get_current_exam_attempt Scenario.is_completed_status 16
           Scenario.ui Scenario.outline "B").
  - decide_by_compute.
  - vm_compute. discriminate.
Defined.

(** The course with a shared leaf: complete exactly on the complete paths. *)
Lemma complete_marks_complete_path_witness :
  get_xblock_field
    (exec (Scenario.transform [Scenario.row "leaf" 1 5] []) Scenario.shared)
    "course" COMPLETE = Some (VBool true)
  ↔ complete_path Scenario.shared
      (complete_keys Scenario.map_into_course
                     (λ _ _, [Scenario.row "leaf" 1 5]) Scenario.ui) "course".
Proof.
  apply (complete_marks_complete_path
           Scenario.str Scenario.map_into_course
           (λ _ _, [Scenario.row "leaf" 1 5]) (λ _ _, [])
           Scenario.get_current_exam_attempt Scenario.is_completed_status 16
           Scenario.ui Scenario.shared _ (Scenario.row "leaf" 1 5)).
  - apply freshb_ok. vm_compute. reflexivity.
  - split; [decide_by_compute|]. apply children_firstb_ok. vm_compute. reflexivity.
  - apply elem_of_cons. by left.
  - reflexivity.
  - vm_compute. reflexivity.
Defined.

(** The course with a shared leaf: the flag on the course leads down to a
    flagged block recorded at 1.0. *)
Lemma resume_block_leads_to_latest_witness :
  ∃ latest_key m,
    descendant Scenario.shared "course" m
    ∧ Scenario.str m = Scenario.str latest_key
    ∧ get_xblock_field
        (exec (Scenario.transform [Scenario.row "leaf" 1 5] []) Scenario.shared)
        m RESUME_BLOCK = Some (VBool true).
Proof.
  destruct (resume_block_leads_to_latest
              Scenario.str Scenario.map_into_course
              (λ _ _, [Scenario.row "leaf" 1 5]) (λ _ _, [])
              Scenario.get_current_exam_attempt Scenario.is_completed_status 16
              Scenario.ui Scenario.shared "course")
    as (latest_key & m & _ & Hdesc & _ & Hstr & Hflag).
  - apply freshb_ok. vm_compute. reflexivity.
  - vm_compute. reflexivity.
  - exists latest_key, m. split; [exact Hdesc|]. split; [exact Hstr|exact Hflag].
Defined.

(** Leaf A of the outline, recorded at 1.0, is marked. *)
Lemma transform_marks_recorded_blocks_witness :
  get_xblock_field
    (exec (Scenario.transform [Scenario.row "A" 1 5] []) Scenario.outline)
    "A" COMPLETE = Some (VBool true).
Proof.
  destruct (transform_marks_recorded_blocks
              Scenario.str Scenario.map_into_course
              (λ _ _, [Scenario.row "A" 1 5]) (λ _ _, [])
              Scenario.get_current_exam_attempt Scenario.is_completed_status 16
              Scenario.ui Scenario.outline
              (exec (Scenario.transform [Scenario.row "A" 1 5] []) Scenario.outline)
              "A") as (latest_key & _ & Hcomplete & _).
  - decide_by_compute.
  - decide_by_compute.
  - vm_compute. reflexivity.
  - exact Hcomplete.
Defined.

(** Leaf A of the outline: complete, and its completion is 1.0. *)
Lemma complete_iff_completion_is_one_witness :
  get_xblock_field
    (exec (Scenario.transform [Scenario.row "A" 1 5] []) Scenario.outline)
    "A" COMPLETE = Some (VBool true)
  ↔ ∃ c, get_block_completion
           (exec (Scenario.transform [Scenario.row "A" 1 5] []) Scenario.outline)
           "A" = Some c
         ∧ PrimFloat.eqb c 1%float = true.
Proof.
  apply (complete_iff_completion_is_one
           Scenario.str Scenario.map_into_course
           (λ _ _, [Scenario.row "A" 1 5]) (λ _ _, [])
           Scenario.get_current_exam_attempt Scenario.is_completed_status 16
           Scenario.ui Scenario.outline).
  - apply freshb_ok. vm_compute. reflexivity.
  - decide_by_compute.
  - decide_by_compute.
  - vm_compute. reflexivity.
  - vm_compute. reflexivity.
Defined.

(** Two rows for A, the later one at 0.5: the dictionary holds 0.5 and A is
    not in the set of complete keys, although a row for A is at 1.0. *)
Lemma last_completion_row_decides_witness :
  completions_dict Scenario.map_into_course
    (λ _ _, [Scenario.row "A" 1 5; Scenario.row "A" 0.5 7]) Scenario.ui !! "A"
  = Some 0.5%float
  ∧ "A" ∉ complete_keys Scenario.map_into_course
            (λ _ _, [Scenario.row "A" 1 5; Scenario.row "A" 0.5 7]) Scenario.ui.
Proof.
  destruct (last_completion_row_decides
              Scenario.map_into_course
              (λ _ _, [Scenario.row "A" 1 5; Scenario.row "A" 0.5 7])
              Scenario.ui [Scenario.row "A" 1 5] (Scenario.row "A" 0.5 7) [])
    as [Hdict Hkeys].
  - reflexivity.
  - intros row' Hin. by apply elem_of_nil in Hin.
  - split; [exact Hdict|]. intros Hin. apply Hkeys in Hin. discriminate Hin.
Defined.


(** A completed exam outside the outline changes nothing. *)
Lemma unmatched_exam_keys_are_ignored_witness :
  Scenario.transform [Scenario.row "A" 1 5] Scenario.stray_exam Scenario.outline
  = Scenario.transform [Scenario.row "A" 1 5] [] Scenario.outline.
Proof.
  apply (unmatched_exam_keys_are_ignored
           Scenario.str Scenario.map_into_course
           (λ _ _, [Scenario.row "A" 1 5]) (λ _ _, Scenario.stray_exam)
           Scenario.get_current_exam_attempt Scenario.is_completed_status 16
           Scenario.ui Scenario.outline).
  intros k Hk.
  change (post_order_traversal Scenario.outline) with ["A"; "B"; "root"] in Hk.
  apply elem_of_cons in Hk as [->|Hk]; [decide_by_compute|].
  apply elem_of_cons in Hk as [->|Hk]; [decide_by_compute|].
  apply list_elem_of_singleton in Hk as ->. decide_by_compute.
Defined.

(** The outline, visited as A, B, root or as B, A, root. *)
Lemma flags_independent_of_post_order_witness :
  get_xblock_field
    (exec (Scenario.transform [Scenario.row "A" 1 5] []) Scenario.outline)
    "root" COMPLETE
  = get_xblock_field
      (exec (Scenario.transform [Scenario.row "A" 1 5] [])
            (reorder ["B"; "A"; "root"] Scenario.outline))
      "root" COMPLETE.
Proof.
  apply (flags_independent_of_post_order
           Scenario.str Scenario.map_into_course
           (λ _ _, [Scenario.row "A" 1 5]) (λ _ _, [])
           Scenario.get_current_exam_attempt Scenario.is_completed_status 16
           Scenario.ui Scenario.outline ["B"; "A"; "root"] _ _
           (Scenario.row "A" 1 5)).
  - apply freshb_ok. vm_compute. reflexivity.
  - split; [decide_by_compute|]. apply children_firstb_ok. vm_compute. reflexivity.
  - split; [decide_by_compute|]. apply children_firstb_ok. vm_compute. reflexivity.
  - intros k. change (post_order_traversal Scenario.outline) with ["A"; "B"; "root"].
    rewrite !elem_of_cons. tauto.
  - apply elem_of_cons. by left.
  - reflexivity.
  - vm_compute. reflexivity.
  - vm_compute. reflexivity.
Defined.
